(** * ordset: an ordered set built from a linked list and a hash map

    A shallow embedding of the Go package [ordset] (file ordset.go) and the
    properties of its public operations.

    Conventions of the embedding.
    - A method with receiver [o *OrderedSet[T]] that mutates the set takes the
      set as its last argument and returns the new set together with the Go
      results.
    - [option] is the evaluation monad for run-time panics: [None] is a Go
      panic (nil pointer dereference, index out of range), [Some r] is normal
      termination with result [r].
    - Go [int] is [Z]; a list longer than [2^63] nodes does not fit in memory,
      so no wrap-around of [Len] or of the position counter of [Range] is
      modelled.
    - The element type [T] is a Go [comparable] type whose [==] is Leibniz
      equality (integers, strings, structs of such, pointers); it is the key
      type of a [gmap]. *)

From Stdlib Require Import ZArith Lia.
From stdpp Require Import base option list gmap strings.

Local Open Scope Z_scope.

(** ** container/list

    The Go standard library's doubly linked list, as far as ordset.go uses it.
    A [List] is the front-to-back sequence of its elements.  An [*Element] is
    an address together with the [Value] stored at that address; ordset.go
    never assigns to [Value], and always stores values of type [T] in it, so
    that the type assertion [elem.Value.(T)] succeeds.  A nil [*Element] is
    [None].  Two element pointers are equal when their addresses are.  The
    test [e.list == l] of container/list is membership of the address of [e]
    in the sequence of [l]. *)
Module GoList.
Section container_list.
Context {T : Type}.

Record Element : Type := mkElement { addr : nat; Value : T }.

(** [next_addr] is the allocator: the address that the next
    [&Element{Value: v}] receives. *)
Record List : Type := mkList { elems : list Element; next_addr : nat }.

(** [list.New()] *)
Definition New : List := mkList [] 0.

(** [l.Len()] *)
Definition Len (l : List) : Z := Z.of_nat (length (elems l)).

(** [l.Front()]: the first element, nil if the list is empty. *)
Definition Front (l : List) : option Element := head (elems l).

(** [l.Back()]: the last element, nil if the list is empty. *)
Definition Back (l : List) : option Element := last (elems l).

(** [e.list == l] *)
Definition member (e : Element) (l : List) : bool :=
  bool_decide (addr e ∈ addr <$> elems l).

(** Unlink the node at address [a]. *)
Definition unlink (a : nat) (es : list Element) : list Element :=
  filter (λ e, addr e ≠ a) es.

(** Link the node [x] immediately behind the node at address [a]. *)
Fixpoint link_after (x : Element) (a : nat) (es : list Element) : list Element :=
  match es with
  | [] => []
  | e :: rest =>
      if decide (addr e = a) then e :: x :: rest
      else e :: link_after x a rest
  end.

(** Link the node [x] immediately in front of the node at address [a]. *)
Fixpoint link_before (x : Element) (a : nat) (es : list Element) : list Element :=
  match es with
  | [] => []
  | e :: rest =>
      if decide (addr e = a) then x :: e :: rest
      else e :: link_before x a rest
  end.

(** [l.PushBack(v)]: a new element at the back; returns it. *)
Definition PushBack (v : T) (l : List) : Element * List :=
  let e := mkElement (next_addr l) v in
  (e, mkList (elems l ++ [e]) (S (next_addr l))).

(** [l.PushFront(v)]: a new element at the front; returns it. *)
Definition PushFront (v : T) (l : List) : Element * List :=
  let e := mkElement (next_addr l) v in
  (e, mkList (e :: elems l) (S (next_addr l))).

(** [l.InsertAfter(v, mark)]: reads [mark.list] (a nil [mark] panics);
    when [mark] is not an element of [l] the list is not modified and nil is
    returned; else a new element is linked behind [mark] and returned. *)
Definition InsertAfter (v : T) (mark : option Element) (l : List)
  : option (option Element * List) :=
  m ← mark;
  if member m l then
    let e := mkElement (next_addr l) v in
    Some (Some e, mkList (link_after e (addr m) (elems l)) (S (next_addr l)))
  else Some (None, l).

(** [l.InsertBefore(v, mark)] *)
Definition InsertBefore (v : T) (mark : option Element) (l : List)
  : option (option Element * List) :=
  m ← mark;
  if member m l then
    let e := mkElement (next_addr l) v in
    Some (Some e, mkList (link_before e (addr m) (elems l)) (S (next_addr l)))
  else Some (None, l).

(** [l.Remove(e)]: reads [e.list] (a nil [e] panics); unlinks [e] when it
    is an element of [l]; returns [e.Value]. *)
Definition Remove (e : option Element) (l : List) : option (T * List) :=
  x ← e;
  Some (Value x,
        if member x l then mkList (unlink (addr x) (elems l)) (next_addr l)
        else l).

(** [l.MoveAfter(e, mark)], whose guard is
    [e.list != l || e == mark || mark.list != l], evaluated left to right:
    a nil [e] panics, a nil [mark] panics once [e] is known to be in [l].
    Else [e] is unlinked and linked again behind [mark]. *)
Definition MoveAfter (e mark : option Element) (l : List) : option List :=
  x ← e;
  if negb (member x l) then Some l
  else
    m ← mark;
    if bool_decide (addr x = addr m) then Some l
    else if negb (member m l) then Some l
    else Some (mkList (link_after x (addr m) (unlink (addr x) (elems l)))
                      (next_addr l)).

(** [l.MoveBefore(e, mark)]: the same guard; [e] is unlinked and linked
    again behind the predecessor of [mark], that is in front of [mark]
    (when [e] is that predecessor already, nothing is relinked and the
    sequence is the same). *)
Definition MoveBefore (e mark : option Element) (l : List) : option List :=
  x ← e;
  if negb (member x l) then Some l
  else
    m ← mark;
    if bool_decide (addr x = addr m) then Some l
    else if negb (member m l) then Some l
    else Some (mkList (link_before x (addr m) (unlink (addr x) (elems l)))
                      (next_addr l)).
End container_list.
Arguments Element : clear implicits.
Arguments List : clear implicits.
End GoList.

(** ** errors *)

(** The error values of the program: the package variable [ErrMarkNotFound]
  and the errors that a caller makes with [errors.New]. *)
Inductive error : Type :=
| ErrMarkNotFound
| errors_New (msg : string).

(** ** package ordset_test *)

(** The visitor of [ExampleOrderedSet_Range]: it prints the position and the
    string (the state is the list of printed lines) and gives up at "two". *)
Definition give_up_at_two (i : Z) (str : string) (printed : list (Z * string))
  : option (option error * list (Z * string)) :=
  Some (if decide (str = "two"%string)
        then Some (errors_New "reached two, giving up now")
        else None,
        printed ++ [(i, str)]).

(** ** package ordset *)
Module ordset.
Section OrderedSet.
Context {T : Type} `{Countable T}.

(** The zero value of [T], the value of an unassigned result variable. *)
Variable zeroValue : T.

(** [type OrderedSet[T comparable] struct { list *list.List; mapping map[T]*list.Element }]:
    [o_list] is the field [list], [o_mapping] the field [mapping]; a key of
    the map can be mapped to nil. *)
Record OrderedSet : Type := mkOrderedSet {
  o_list : GoList.List T;
  o_mapping : gmap T (option (GoList.Element T))
}.

(** [o.mapping[k]] in its one-result form: nil when [k] is not a key. *)
Definition mapping_at (o : OrderedSet) (k : T) : option (GoList.Element T) :=
  default None (o_mapping o !! k).

(** [func (o *OrderedSet[T]) Len() int] *)
Definition Len (o : OrderedSet) : Z := GoList.Len (o_list o).

(** [func (o *OrderedSet[T]) Has(v T) bool]: the second result of the
    two-result lookup [o.mapping[v]]. *)
Definition Has (v : T) (o : OrderedSet) : bool :=
  bool_decide (is_Some (o_mapping o !! v)).

(** [func (o *OrderedSet[T]) Front() T]: [o.list.Front().Value.(T)], which
    dereferences nil when the list is empty. *)
Definition Front (o : OrderedSet) : option T :=
  elem ← GoList.Front (o_list o); Some (GoList.Value elem).

(** [func (o *OrderedSet[T]) Back() T] *)
Definition Back (o : OrderedSet) : option T :=
  elem ← GoList.Back (o_list o); Some (GoList.Value elem).

(** [func (o *OrderedSet[T]) Append(v T) bool] *)
Definition Append (v : T) (o : OrderedSet) : OrderedSet * bool :=
  if Has v o then (o, false)
  else
    let '(e, l) := GoList.PushBack v (o_list o) in
    (mkOrderedSet l (<[v := Some e]> (o_mapping o)), true).

(** [func (o *OrderedSet[T]) Prepend(v T) bool] *)
Definition Prepend (v : T) (o : OrderedSet) : OrderedSet * bool :=
  if Has v o then (o, false)
  else
    let '(e, l) := GoList.PushFront v (o_list o) in
    (mkOrderedSet l (<[v := Some e]> (o_mapping o)), true).

(** [func New[T comparable](elems ...T) *OrderedSet[T]]: an empty list and an
    empty map, then [set.Append(v)] for each [v] of [elems] in order. *)
Definition New (elems : list T) : OrderedSet :=
  foldl (λ set v, (Append v set).1) (mkOrderedSet GoList.New ∅) elems.

(** [func (o *OrderedSet[T]) Pop() (v T, ok bool)]: without members the
    results keep their zero values; the type assertion [elem.Value.(T)] gives
    [ok = true]. *)
Definition Pop (o : OrderedSet) : option (OrderedSet * (T * bool)) :=
  if bool_decide (0 < Len o) then
    let elem := GoList.Back (o_list o) in
    '(_, l) ← GoList.Remove elem (o_list o);
    e ← elem;
    let v := GoList.Value e in
    Some (mkOrderedSet l (delete v (o_mapping o)), (v, true))
  else Some (o, (zeroValue, false)).

(** [func (o *OrderedSet[T]) Shift() (v T, ok bool)] *)
Definition Shift (o : OrderedSet) : option (OrderedSet * (T * bool)) :=
  if bool_decide (0 < Len o) then
    let elem := GoList.Front (o_list o) in
    '(_, l) ← GoList.Remove elem (o_list o);
    e ← elem;
    let v := GoList.Value e in
    Some (mkOrderedSet l (delete v (o_mapping o)), (v, true))
  else Some (o, (zeroValue, false)).

(** [func (o *OrderedSet[T]) Insert(v, mark T, after bool) (added bool, err error)]:
    what [InsertAfter] or [InsertBefore] returns is stored at key [v]. *)
Definition Insert (v mark : T) (after : bool) (o : OrderedSet)
  : option (OrderedSet * (bool * option error)) :=
  if negb (Has mark o) then Some (o, (false, Some ErrMarkNotFound))
  else if Has v o then Some (o, (false, None))
  else
    '(e, l) ← (if after
               then GoList.InsertAfter v (mapping_at o mark) (o_list o)
               else GoList.InsertBefore v (mapping_at o mark) (o_list o));
    Some (mkOrderedSet l (<[v := e]> (o_mapping o)), (true, None)).

(** [func (o *OrderedSet[T]) Move(v, mark T, after bool) (err error)] *)
Definition Move (v mark : T) (after : bool) (o : OrderedSet)
  : option (OrderedSet * option error) :=
  if negb (Has mark o) then Some (o, Some ErrMarkNotFound)
  else
    match o_mapping o !! v with
    | Some elem =>
        l ← (if after
             then GoList.MoveAfter elem (mapping_at o mark) (o_list o)
             else GoList.MoveBefore elem (mapping_at o mark) (o_list o));
        Some (mkOrderedSet l (o_mapping o), None)
    | None => Some (o, None)
    end.

(** [func (o *OrderedSet[T]) Remove(v T) bool] *)
Definition Remove (v : T) (o : OrderedSet) : option (OrderedSet * bool) :=
  match o_mapping o !! v with
  | Some elem =>
      '(_, l) ← GoList.Remove elem (o_list o);
      Some (mkOrderedSet l (delete v (o_mapping o)), true)
  | None => Some (o, false)
  end.

(** The loop of [Range],
    [for elem := o.list.Front(); elem != nil; elem = elem.Next()]:
    [cursor] is the part of the sequence from [elem] on (empty when [elem] is
    nil), [i] the position counter, [s] the state of the visitor.  A visitor
    [loop i v s] either panics or returns its error result (nil is [None])
    and its new state; it does not call the operations of the set that is
    being traversed. *)
Fixpoint Range_loop {St E : Type} (loop : Z → T → St → option (option E * St))
    (cursor : list (GoList.Element T)) (i : Z) (s : St) : option (option E * St) :=
  match cursor with
  | [] => Some (None, s)
  | elem :: rest =>
      '(err, s') ← loop i (GoList.Value elem) s;
      match err with
      | Some e => Some (Some e, s')
      | None => Range_loop loop rest (i + 1) s'
      end
  end.

(** [func (o *OrderedSet[T]) Range(loop func(int, T) error) error] *)
Definition Range {St E : Type} (loop : Z → T → St → option (option E * St))
    (o : OrderedSet) (s : St) : option (option E * St) :=
  Range_loop loop (GoList.elems (o_list o)) 0 s.

(** [func (o *OrderedSet[T]) RangeReverse(loop func(int, T) error) error]:
    from [o.list.Back()] along [elem.Prev()]. *)
Definition RangeReverse {St E : Type} (loop : Z → T → St → option (option E * St))
    (o : OrderedSet) (s : St) : option (option E * St) :=
  Range_loop loop (reverse (GoList.elems (o_list o))) 0 s.

(** [slice[i] = v]: panics when [i] is out of range. *)
Definition slice_store (slice : list T) (i : Z) (v : T) : option (list T) :=
  if bool_decide (0 ≤ i < Z.of_nat (length slice))
  then Some (<[Z.to_nat i := v]> slice)
  else None.

(** [func (o *OrderedSet[T]) Slice() []T]: a slice of [o.Len()] zero values,
    filled by [Range]; the result of [Range] is dropped. *)
Definition Slice (o : OrderedSet) : option (list T) :=
  let slice := replicate (Z.to_nat (Len o)) zeroValue in
  '(_, slice') ← Range (E := error)
                   (λ i v slice, slice' ← slice_store slice i v; Some (None, slice'))
                   o slice;
  Some slice'.

(** ** Histories of calls *)

(** The public operations that mutate a set. *)
Inductive op : Type :=
  | OpAppend (v : T)
  | OpPrepend (v : T)
  | OpInsert (v mark : T) (after : bool)
  | OpMove (v mark : T) (after : bool)
  | OpRemove (v : T)
  | OpPop
  | OpShift.

(** One call: the set after it, unless the call panics. *)
Definition exec (c : op) (o : OrderedSet) : option OrderedSet :=
  match c with
  | OpAppend v => Some (Append v o).1
  | OpPrepend v => Some (Prepend v o).1
  | OpInsert v mark after => fst <$> Insert v mark after o
  | OpMove v mark after => fst <$> Move v mark after o
  | OpRemove v => fst <$> Remove v o
  | OpPop => fst <$> Pop o
  | OpShift => fst <$> Shift o
  end.

(** The sets that a client of the package can hold: made by [New], then
    changed by calls of the public operations. *)
Inductive reachable : OrderedSet → Prop :=
  | reachable_New (elems : list T) : reachable (New elems)
  | reachable_exec (c : op) (o o' : OrderedSet) :
      reachable o → exec c o = Some o' → reachable o'.

(** The values of the nodes, front to back. *)
Definition values (o : OrderedSet) : list T :=
  GoList.Value <$> GoList.elems (o_list o).

(** The representation invariant: node addresses are distinct and below
    the allocator, node values are distinct, and the keys of the mapping are
    the node values, each mapped to its (non-nil) node. *)
Definition wf (o : OrderedSet) : Prop :=
  NoDup (GoList.addr <$> GoList.elems (o_list o)) ∧
  Forall (λ e, (GoList.addr e < GoList.next_addr (o_list o))%nat)
         (GoList.elems (o_list o)) ∧
  NoDup (values o) ∧
  ∀ v p, o_mapping o !! v = Some p ↔
         ∃ e, p = Some e ∧ e ∈ GoList.elems (o_list o) ∧ GoList.Value e = v.

(** [n] calls of [Pop], with the results in call order. *)
Fixpoint pops (n : nat) (o : OrderedSet) : option (OrderedSet * list (T * bool)) :=
  match n with
  | O => Some (o, [])
  | S n' =>
      '(o', r) ← Pop o;
      '(o'', rs) ← pops n' o';
      Some (o'', r :: rs)
  end.

(** [n] calls of [Shift], with the results in call order. *)
Fixpoint shifts (n : nat) (o : OrderedSet) : option (OrderedSet * list (T * bool)) :=
  match n with
  | O => Some (o, [])
  | S n' =>
      '(o', r) ← Shift o;
      '(o'', rs) ← shifts n' o';
      Some (o'', r :: rs)
  end.

(** A visitor that also keeps the log of its calls: the position and the
    value that it was called with, and the error that it returned. *)
Definition logged {St E : Type} (loop : Z → T → St → option (option E * St))
    (i : Z) (v : T) (s : St * list (Z * T * option E))
  : option (option E * (St * list (Z * T * option E))) :=
  '(err, s') ← loop i v s.1;
  Some (err, (s', s.2 ++ [(i, v, err)])).

(** The members paired with consecutive positions, counted from [i]. *)
Fixpoint positions_from (i : Z) (vs : list T) : list (Z * T) :=
  match vs with
  | [] => []
  | v :: rest => (i, v) :: positions_from (i + 1) rest
  end.

(** The members paired with their zero-based positions. *)
Definition positions (vs : list T) : list (Z * T) := positions_from 0 vs.

(** [now] is [rest] with [v] put immediately behind [mark] ([after]) or
    immediately in front of it. *)
Definition placed_next_to (v mark : T) (after : bool) (rest now : list T) : Prop :=
  ∃ xs ys, rest = xs ++ mark :: ys ∧
           now = if after then xs ++ mark :: v :: ys else xs ++ v :: mark :: ys.

(** The contract of [Move] for a mark that is a member, in the words of the
    specification: a value that is not a member is left alone without an
    error; the node of a member is unlinked from its position and linked
    again next to the node of [mark], and its entry in the mapping is kept. *)
Definition Move_contract (v mark : T) (after : bool) (o : OrderedSet) : Prop :=
  (Has v o = false → Move v mark after o = Some (o, None)) ∧
  (Has v o = true →
   ∃ o' a b now,
     Move v mark after o = Some (o', None) ∧
     Slice o = Some (a ++ v :: b) ∧ Slice o' = Some now ∧
     placed_next_to v mark after (a ++ b) now ∧
     o_mapping o' !! v = o_mapping o !! v).

(** What the package documentation says of duplicates: of equal values only
    the first occurrence is kept, in the order of first occurrences. *)
Fixpoint first_occurrences (vs : list T) : list T :=
  match vs with
  | [] => []
  | v :: rest => v :: filter (λ x, x ≠ v) (first_occurrences rest)
  end.

(** ** Sequences of nodes *)

Implicit Types (es xs ys : list (GoList.Element T)) (e m x : GoList.Element T).
Implicit Types (o : OrderedSet) (v mark : T).

Lemma unlink_fresh a es :
  a ∉ GoList.addr <$> es → GoList.unlink a es = es.
Proof.
  unfold GoList.unlink. induction es as [|e es IH]; [done|].
  rewrite fmap_cons, not_elem_of_cons. intros [Hne Hnotin].
  rewrite filter_cons_True by done. by rewrite IH.
Qed.

Lemma unlink_middle a xs e ys :
  GoList.addr e = a → a ∉ GoList.addr <$> xs → a ∉ GoList.addr <$> ys →
  GoList.unlink a (xs ++ e :: ys) = xs ++ ys.
Proof.
  intros He Hx Hy. pose proof (unlink_fresh a xs Hx) as Hxs.
  pose proof (unlink_fresh a ys Hy) as Hys. unfold GoList.unlink in *.
  rewrite filter_app, filter_cons_False by (by intros Hne).
  by rewrite Hxs, Hys.
Qed.

Lemma link_after_middle x a xs m ys :
  GoList.addr m = a → a ∉ GoList.addr <$> xs →
  GoList.link_after x a (xs ++ m :: ys) = xs ++ m :: x :: ys.
Proof.
  intros Hm. induction xs as [|e xs IH]; simpl.
  - intros _. by rewrite decide_True.
  - rewrite not_elem_of_cons. intros [Hne Hnotin].
    rewrite decide_False by done. by rewrite IH.
Qed.

Lemma link_before_middle x a xs m ys :
  GoList.addr m = a → a ∉ GoList.addr <$> xs →
  GoList.link_before x a (xs ++ m :: ys) = xs ++ x :: m :: ys.
Proof.
  intros Hm. induction xs as [|e xs IH]; simpl.
  - intros _. by rewrite decide_True.
  - rewrite not_elem_of_cons. intros [Hne Hnotin].
    rewrite decide_False by done. by rewrite IH.
Qed.

Lemma NoDup_fmap_middle {A B : Type} (f : A → B) (l1 l2 : list A) (a : A) :
  NoDup (f <$> (l1 ++ a :: l2)) → (f a ∉ f <$> l1) ∧ (f a ∉ f <$> l2).
Proof.
  rewrite fmap_app, fmap_cons, NoDup_app, NoDup_cons.
  intros (_ & Hdisj & Hnotin & _). split; [|done].
  intros Hin. apply (Hdisj _ Hin). by left.
Qed.

Lemma member_elem_of e es n :
  e ∈ es → GoList.member e (GoList.mkList es n) = true.
Proof.
  intros Hin. apply bool_decide_eq_true. simpl. by apply list_elem_of_fmap_2.
Qed.

(** ** Traversal *)

(** A store at the first free cell. *)
Lemma slice_store_next (pre suf : list T) (c v : T) :
  slice_store (pre ++ c :: suf) (Z.of_nat (length pre)) v
  = Some ((pre ++ [v]) ++ suf).
Proof.
  unfold slice_store.
  rewrite bool_decide_eq_true_2 by (rewrite length_app; simpl; lia).
  rewrite Nat2Z.id, insert_app_r_alt by lia.
  rewrite Nat.sub_diag. simpl. by rewrite <- app_assoc.
Qed.

(** The visitor of [Slice] fills the slice from the front: with [pre]
    written and as many cells left as nodes, the loop ends with the values
    of the nodes behind [pre], and no store is out of range. *)
Lemma Range_loop_store es (pre suf : list T) :
  length suf = length es →
  Range_loop (E := error)
    (λ i v slice, slice' ← slice_store slice i v; Some (None, slice'))
    es (Z.of_nat (length pre)) (pre ++ suf)
  = Some (None, pre ++ (GoList.Value <$> es)).
Proof.
  revert pre suf. induction es as [|e es IH]; intros pre suf Hlen.
  - destruct suf; [|done]. done.
  - destruct suf as [|c suf]; [done|]. simpl in Hlen.
    cbn [Range_loop]. rewrite slice_store_next. cbn [mbind option_bind].
    replace (Z.of_nat (length pre) + 1)
      with (Z.of_nat (length (pre ++ [GoList.Value e])))
      by (rewrite length_app; simpl; lia).
    rewrite IH by lia. by rewrite fmap_cons, <- app_assoc.
Qed.

(** [Slice] never panics and returns the values of the nodes, front to
    back. *)
Lemma Slice_values o : Slice o = Some (values o).
Proof.
  unfold Slice, Range, Len, GoList.Len. rewrite Nat2Z.id.
  pose proof (Range_loop_store (GoList.elems (o_list o)) []
                (replicate (length (GoList.elems (o_list o))) zeroValue)) as Hrun.
  specialize (Hrun (length_replicate _ _)). simpl in Hrun.
  change (Z.of_nat 0) with 0 in Hrun. by rewrite Hrun.
Qed.

Lemma Len_values o : Len o = Z.of_nat (length (values o)).
Proof. unfold Len, GoList.Len, values. by rewrite length_fmap. Qed.

(** ** The representation invariant *)

Lemma wf_lookup o v p :
  wf o → o_mapping o !! v = Some p →
  ∃ e, p = Some e ∧ e ∈ GoList.elems (o_list o) ∧ GoList.Value e = v.
Proof. intros (_ & _ & _ & Hmap). apply Hmap. Qed.

Lemma wf_Has o v : wf o → Has v o = true ↔ v ∈ values o.
Proof.
  intros (_ & _ & _ & Hmap). unfold Has, values.
  rewrite bool_decide_eq_true, list_elem_of_fmap. split.
  - intros [p Hp]. apply Hmap in Hp as (e & _ & Hin & <-). eauto.
  - intros (e & -> & Hin). exists (Some e). apply Hmap. eauto.
Qed.

Lemma wf_Has_false o v : wf o → Has v o = false ↔ v ∉ values o.
Proof.
  intros Hwf. rewrite <- (wf_Has o v Hwf). by destruct (Has v o).
Qed.

Lemma Has_false_lookup o v : Has v o = false ↔ o_mapping o !! v = None.
Proof.
  unfold Has. rewrite bool_decide_eq_false, <- eq_None_not_Some. done.
Qed.

Lemma Has_true_lookup o v : Has v o = true ↔ is_Some (o_mapping o !! v).
Proof. unfold Has. by rewrite bool_decide_eq_true. Qed.

(** A member is mapped to its node, which is in the sequence. *)
Lemma wf_member_split o v :
  wf o → Has v o = true →
  ∃ e xs ys, o_mapping o !! v = Some (Some e) ∧ GoList.Value e = v ∧
             GoList.elems (o_list o) = xs ++ e :: ys.
Proof.
  intros Hwf [p Hp]%Has_true_lookup.
  destruct (wf_lookup o v p Hwf Hp) as (e & -> & Hin & Hv).
  apply list_elem_of_split in Hin as (xs & ys & Hsplit). eauto 10.
Qed.

(** The empty set of [New]. *)
Lemma wf_empty : wf (mkOrderedSet GoList.New ∅).
Proof.
  repeat split; simpl; try constructor.
  - by rewrite lookup_empty.
  - intros (e & _ & Hin & _). by apply elem_of_nil in Hin.
Qed.

(** Relinking the nodes in another order keeps the invariant. *)
Lemma wf_relink o es' :
  wf o → es' ≡ₚ GoList.elems (o_list o) →
  wf (mkOrderedSet (GoList.mkList es' (GoList.next_addr (o_list o))) (o_mapping o)).
Proof.
  intros (Haddr & Hbound & Hval & Hmap) Hperm.
  unfold wf, values in *. simpl. rewrite !Hperm. repeat split; try done.
  - intros Hp. apply Hmap in Hp as (e & ? & ? & ?). exists e. by rewrite Hperm.
  - intros (e & ? & Hin & ?). apply Hmap. exists e. by rewrite <- Hperm.
Qed.

(** Linking a newly allocated node for a value that is not a key, and
    recording it in the mapping, keeps the invariant. *)
Lemma wf_link o es' v :
  let x := GoList.mkElement (GoList.next_addr (o_list o)) v in
  wf o → Has v o = false → es' ≡ₚ x :: GoList.elems (o_list o) →
  wf (mkOrderedSet (GoList.mkList es' (S (GoList.next_addr (o_list o))))
                   (<[v := Some x]> (o_mapping o))).
Proof.
  intros x Hwf Hnew Hperm. pose proof Hwf as (Haddr & Hbound & Hval & Hmap).
  apply (wf_Has_false o v Hwf) in Hnew.
  unfold wf, values in *. simpl. rewrite !Hperm, !fmap_cons. simpl.
  split; [|split; [|split]].
  - apply NoDup_cons. split; [|done].
    intros (e & He & Hin)%list_elem_of_fmap.
    rewrite Forall_forall in Hbound. specialize (Hbound e Hin). lia.
  - apply Forall_cons. split; [unfold x; simpl; lia|].
    eapply Forall_impl; [exact Hbound|]. simpl. lia.
  - by apply NoDup_cons.
  - intros w p. rewrite lookup_insert. case_decide as Hw; [subst w|].
    + split.
      * intros [= <-]. exists x. split; [done|]. split; [|done].
        rewrite Hperm. by left.
      * intros (e & -> & Hin & He). f_equal. f_equal.
        rewrite Hperm in Hin. apply elem_of_cons in Hin as [->|Hin]; [done|].
        exfalso. apply Hnew. rewrite <- He. by apply list_elem_of_fmap_2.
    + rewrite Hmap. split.
      * intros (e & ? & Hin & ?). exists e. rewrite Hperm.
        split; [done|]. split; [by right|done].
      * intros (e & ? & Hin & He). exists e. split; [done|]. split; [|done].
        rewrite Hperm in Hin. apply elem_of_cons in Hin as [->|Hin]; [|done].
        simpl in He. congruence.
Qed.

(** Unlinking a node and deleting its value from the mapping keeps the
    invariant. *)
Lemma wf_unlink o es' e :
  wf o → GoList.elems (o_list o) ≡ₚ e :: es' →
  wf (mkOrderedSet (GoList.mkList es' (GoList.next_addr (o_list o)))
                   (delete (GoList.Value e) (o_mapping o))).
Proof.
  intros (Haddr & Hbound & Hval & Hmap) Hperm.
  unfold wf, values in *. simpl.
  rewrite Hperm, ?fmap_cons in Haddr, Hbound, Hval.
  apply NoDup_cons in Haddr as [_ Haddr]. apply NoDup_cons in Hval as [Hfresh Hval].
  apply Forall_cons in Hbound as [_ Hbound].
  repeat split; try done.
  - rewrite lookup_delete_Some. intros [Hne Hp].
    apply Hmap in Hp as (e' & ? & Hin & He'). exists e'.
    split; [done|]. split; [|done].
    rewrite Hperm in Hin. apply elem_of_cons in Hin as [->|Hin]; [|done].
    congruence.
  - intros (e' & ? & Hin & He'). apply lookup_delete_Some. split.
    + intros Heq. apply Hfresh. rewrite Heq, <- He'.
      by apply list_elem_of_fmap_2.
    + apply Hmap. exists e'. split; [done|]. split; [|done].
      rewrite Hperm. by right.
Qed.

(** ** The operations on a set that satisfies the invariant *)

Lemma Append_member o v : Has v o = true → Append v o = (o, false).
Proof. intros Hv. unfold Append. by rewrite Hv. Qed.

Lemma Append_new o v :
  Has v o = false →
  Append v o =
    (mkOrderedSet
       (GoList.mkList
          (GoList.elems (o_list o) ++ [GoList.mkElement (GoList.next_addr (o_list o)) v])
          (S (GoList.next_addr (o_list o))))
       (<[v := Some (GoList.mkElement (GoList.next_addr (o_list o)) v)]> (o_mapping o)),
     true).
Proof. intros Hv. unfold Append. by rewrite Hv. Qed.

Lemma Append_wf o v : wf o → wf (Append v o).1.
Proof.
  intros Hwf. destruct (Has v o) eqn:Hv.
  - by rewrite Append_member.
  - rewrite Append_new by done. simpl. apply wf_link; [done..|].
    by rewrite Permutation_app_comm.
Qed.

Lemma Append_values o v :
  values (Append v o).1 = if Has v o then values o else values o ++ [v].
Proof.
  destruct (Has v o) eqn:Hv.
  - by rewrite Append_member.
  - rewrite Append_new by done. unfold values. simpl. by rewrite fmap_app.
Qed.

Lemma Prepend_wf o v : wf o → wf (Prepend v o).1.
Proof.
  intros Hwf. unfold Prepend. destruct (Has v o) eqn:Hv; [done|].
  simpl. by apply wf_link.
Qed.

Lemma Prepend_values o v :
  values (Prepend v o).1 = if Has v o then values o else v :: values o.
Proof. unfold Prepend. by destruct (Has v o). Qed.

Lemma foldl_Append_wf (vs : list T) o :
  wf o → wf (foldl (λ set v, (Append v set).1) o vs).
Proof.
  revert o. induction vs as [|v vs IH]; intros o Hwf; [done|].
  simpl. apply IH. by apply Append_wf.
Qed.

Lemma New_wf (vs : list T) : wf (New vs).
Proof. apply foldl_Append_wf, wf_empty. Qed.

(** [Insert] of a new value next to a member. *)
Lemma Insert_new o v mark after :
  wf o → Has mark o = true → Has v o = false →
  ∃ m xs ys,
    GoList.elems (o_list o) = xs ++ m :: ys ∧ GoList.Value m = mark ∧
    let x := GoList.mkElement (GoList.next_addr (o_list o)) v in
    Insert v mark after o =
      Some (mkOrderedSet
              (GoList.mkList
                 (if after then xs ++ m :: x :: ys else xs ++ x :: m :: ys)
                 (S (GoList.next_addr (o_list o))))
              (<[v := Some x]> (o_mapping o)),
            (true, None)).
Proof.
  intros Hwf Hmark Hv.
  destruct (wf_member_split o mark Hwf Hmark) as (m & xs & ys & Hm & Hval & Hsplit).
  exists m, xs, ys. split; [done|]. split; [done|]. intros x.
  unfold Insert, mapping_at. rewrite Hmark, Hv, Hm. simpl.
  destruct Hwf as (Haddr & _). rewrite Hsplit in Haddr.
  apply NoDup_fmap_middle in Haddr as [Hxs _].
  unfold GoList.InsertAfter, GoList.InsertBefore. cbn [mbind option_bind].
  destruct (o_list o) as [es n]. simpl in *. subst es.
  rewrite member_elem_of by (apply elem_of_app; right; by left).
  destruct after; simpl.
  - by rewrite link_after_middle.
  - by rewrite link_before_middle.
Qed.

(** [Remove] of a member. *)
Lemma Remove_member o v :
  wf o → Has v o = true →
  ∃ e xs ys,
    GoList.elems (o_list o) = xs ++ e :: ys ∧ GoList.Value e = v ∧
    Remove v o =
      Some (mkOrderedSet (GoList.mkList (xs ++ ys) (GoList.next_addr (o_list o)))
                         (delete v (o_mapping o)),
            true).
Proof.
  intros Hwf Hv.
  destruct (wf_member_split o v Hwf Hv) as (e & xs & ys & He & Hval & Hsplit).
  exists e, xs, ys. split; [done|]. split; [done|].
  unfold Remove. rewrite He. unfold GoList.Remove. cbn [mbind option_bind].
  destruct Hwf as (Haddr & _). rewrite Hsplit in Haddr.
  apply NoDup_fmap_middle in Haddr as [Hxs Hys].
  destruct (o_list o) as [es n]. simpl in *. subst es.
  rewrite member_elem_of by (apply elem_of_app; right; by left).
  simpl. by rewrite unlink_middle.
Qed.

Lemma Pop_empty o :
  GoList.elems (o_list o) = [] → Pop o = Some (o, (zeroValue, false)).
Proof. intros Hnil. unfold Pop, Len, GoList.Len. by rewrite Hnil. Qed.

Lemma Shift_empty o :
  GoList.elems (o_list o) = [] → Shift o = Some (o, (zeroValue, false)).
Proof. intros Hnil. unfold Shift, Len, GoList.Len. by rewrite Hnil. Qed.

(** [Pop] unlinks the last node. *)
Lemma Pop_last o xs e :
  wf o → GoList.elems (o_list o) = xs ++ [e] →
  Pop o =
    Some (mkOrderedSet (GoList.mkList xs (GoList.next_addr (o_list o)))
                       (delete (GoList.Value e) (o_mapping o)),
          (GoList.Value e, true)).
Proof.
  intros (Haddr & _) Hsplit. rewrite Hsplit in Haddr.
  apply NoDup_fmap_middle in Haddr as [Hxs Hys].
  unfold Pop, Len, GoList.Len, GoList.Back, GoList.Remove.
  destruct (o_list o) as [es n]. simpl in *. subst es.
  rewrite bool_decide_eq_true_2 by (rewrite length_app; simpl; lia).
  rewrite last_snoc. cbn [mbind option_bind].
  rewrite member_elem_of by (apply elem_of_app; right; by left).
  simpl. by rewrite unlink_middle, app_nil_r.
Qed.

(** [Shift] unlinks the first node. *)
Lemma Shift_first o e ys :
  wf o → GoList.elems (o_list o) = e :: ys →
  Shift o =
    Some (mkOrderedSet (GoList.mkList ys (GoList.next_addr (o_list o)))
                       (delete (GoList.Value e) (o_mapping o)),
          (GoList.Value e, true)).
Proof.
  intros (Haddr & _) Hsplit. rewrite Hsplit in Haddr.
  apply (NoDup_fmap_middle _ []) in Haddr as [Hxs Hys].
  unfold Shift, Len, GoList.Len, GoList.Front, GoList.Remove.
  destruct (o_list o) as [es n]. simpl in *. subst es.
  rewrite bool_decide_eq_true_2 by (simpl; lia).
  cbn [head mbind option_bind].
  rewrite member_elem_of by by left.
  simpl. pose proof (unlink_middle (GoList.addr e) [] e ys eq_refl Hxs Hys) as Hun.
  simpl in Hun. by rewrite Hun.
Qed.

Lemma Move_absent o v mark after :
  Has mark o = true → Has v o = false → Move v mark after o = Some (o, None).
Proof.
  intros Hmark Hv%Has_false_lookup. unfold Move. by rewrite Hmark, Hv.
Qed.

(** [Move] of a member relative to itself stops at the test [e == mark]. *)
Lemma Move_self o v after :
  wf o → Has v o = true → Move v v after o = Some (o, None).
Proof.
  intros Hwf Hv.
  destruct (wf_member_split o v Hwf Hv) as (e & xs & ys & He & Hval & Hsplit).
  unfold Move, mapping_at. rewrite Hv, He. simpl.
  unfold GoList.MoveAfter, GoList.MoveBefore. cbn [mbind option_bind].
  destruct o as [[es n] mp]. simpl in *. subst es.
  rewrite member_elem_of by (apply elem_of_app; right; by left).
  rewrite bool_decide_eq_true_2 by done. by destruct after.
Qed.

(** In a sequence without two nodes at one address, nodes at the same
    address are the same node. *)
Lemma NoDup_fmap_inj_on {A B : Type} (f : A → B) (l : list A) (a b : A) :
  NoDup (f <$> l) → a ∈ l → b ∈ l → f a = f b → a = b.
Proof.
  intros Hnd Ha Hb Hab. apply list_elem_of_split in Ha as (l1 & l2 & ->).
  apply NoDup_fmap_middle in Hnd as [H1 H2].
  apply elem_of_app in Hb as [Hb|Hb].
  - exfalso. apply H1. rewrite Hab. by apply list_elem_of_fmap_2.
  - apply elem_of_cons in Hb as [->|Hb]; [done|].
    exfalso. apply H2. rewrite Hab. by apply list_elem_of_fmap_2.
Qed.

(** [Move] of a member relative to another member: the node of [v] is
    unlinked and linked again next to the node of [mark]; the mapping is not
    touched. *)
Lemma Move_member o v mark after :
  wf o → Has mark o = true → Has v o = true → v ≠ mark →
  ∃ e m xs ys xs' ys',
    GoList.elems (o_list o) = xs ++ e :: ys ∧
    GoList.Value e = v ∧ GoList.Value m = mark ∧
    xs ++ ys = xs' ++ m :: ys' ∧
    Move v mark after o =
      Some (mkOrderedSet
              (GoList.mkList
                 (if after then xs' ++ m :: e :: ys' else xs' ++ e :: m :: ys')
                 (GoList.next_addr (o_list o)))
              (o_mapping o),
            None).
Proof.
  intros Hwf Hmark Hv Hne.
  destruct (wf_member_split o v Hwf Hv) as (e & xs & ys & He & Hval & Hsplit).
  destruct (Has_true_lookup o mark) as [[p Hp] _]; [done|].
  destruct (wf_lookup o mark p Hwf Hp) as (m & -> & Hin & Hm).
  pose proof Hwf as (Haddr & _).
  assert (GoList.addr e ≠ GoList.addr m) as Hem.
  { intros Heq. apply Hne. rewrite <- Hval, <- Hm. f_equal.
    apply (NoDup_fmap_inj_on GoList.addr (GoList.elems (o_list o))); [done| |done..].
    rewrite Hsplit. apply elem_of_app; right; by left. }
  rewrite Hsplit in Hin, Haddr.
  assert (m ∈ xs ++ ys) as Hin'.
  { rewrite elem_of_app, elem_of_cons in Hin. rewrite elem_of_app.
    destruct Hin as [?|[->|?]]; [by left|done|by right]. }
  apply list_elem_of_split in Hin' as (xs' & ys' & Hsplit').
  exists e, m, xs, ys, xs', ys'. repeat (split; [done|]).
  pose proof (NoDup_fmap_middle _ _ _ _ Haddr) as [Hxs Hys].
  assert (NoDup (GoList.addr <$> (xs' ++ m :: ys'))) as Haddr'.
  { rewrite <- Hsplit'. revert Haddr.
    rewrite !fmap_app, fmap_cons, !NoDup_app, NoDup_cons.
    intros (? & Hdisj & _ & ?). split; [done|]. split; [|done].
    intros a Ha Ha'. apply (Hdisj a Ha). by right. }
  apply NoDup_fmap_middle in Haddr' as [Hxs' _].
  unfold Move, mapping_at. rewrite Hmark, He, Hp. simpl.
  unfold GoList.MoveAfter, GoList.MoveBefore. cbn [mbind option_bind].
  destruct (o_list o) as [es n]. simpl in *. subst es.
  rewrite !member_elem_of
    by (rewrite elem_of_app, elem_of_cons; rewrite elem_of_app, elem_of_cons in Hin;
        tauto).
  rewrite bool_decide_eq_false_2 by done. simpl.
  rewrite unlink_middle by done. rewrite Hsplit'.
  destruct after.
  - by rewrite link_after_middle.
  - by rewrite link_before_middle.
Qed.

(** ** No operation panics, and every operation keeps the invariant *)

Lemma Insert_safe o v mark after :
  wf o → ∃ o' r, Insert v mark after o = Some (o', r) ∧ wf o'.
Proof.
  intros Hwf. destruct (Has mark o) eqn:Hmark.
  - destruct (Has v o) eqn:Hv.
    + exists o, (false, None). unfold Insert. by rewrite Hmark, Hv.
    + destruct (Insert_new o v mark after Hwf Hmark Hv)
        as (m & xs & ys & Hsplit & _ & Hrun).
      eexists _, _. split; [exact Hrun|]. apply wf_link; [done..|].
      rewrite Hsplit. destruct after; by solve_Permutation.
  - exists o, (false, Some ErrMarkNotFound). unfold Insert. by rewrite Hmark.
Qed.

Lemma Move_safe o v mark after :
  wf o → ∃ o' r, Move v mark after o = Some (o', r) ∧ wf o'.
Proof.
  intros Hwf. destruct (Has mark o) eqn:Hmark.
  - destruct (Has v o) eqn:Hv.
    + destruct (decide (v = mark)) as [->|Hne].
      * exists o, None. by rewrite Move_self.
      * destruct (Move_member o v mark after Hwf Hmark Hv Hne)
          as (e & m & xs & ys & xs' & ys' & Hsplit & _ & _ & Hsplit' & Hrun).
        eexists _, _. split; [exact Hrun|]. apply wf_relink; [done|].
        rewrite Hsplit. transitivity (e :: (xs ++ ys)); [|by solve_Permutation].
        rewrite Hsplit'. destruct after; by solve_Permutation.
    + exists o, None. by rewrite Move_absent.
  - exists o, (Some ErrMarkNotFound). unfold Move. by rewrite Hmark.
Qed.

Lemma Remove_absent o v : Has v o = false → Remove v o = Some (o, false).
Proof. intros Hv%Has_false_lookup. unfold Remove. by rewrite Hv. Qed.

Lemma Remove_safe o v :
  wf o → ∃ o' r, Remove v o = Some (o', r) ∧ wf o'.
Proof.
  intros Hwf. destruct (Has v o) eqn:Hv.
  - destruct (Remove_member o v Hwf Hv) as (e & xs & ys & Hsplit & Hval & Hrun).
    eexists _, _. split; [exact Hrun|]. rewrite <- Hval.
    apply wf_unlink; [done|]. rewrite Hsplit. by solve_Permutation.
  - exists o, false. by rewrite Remove_absent.
Qed.

Lemma Pop_safe o :
  wf o → ∃ o' r, Pop o = Some (o', r) ∧ wf o'.
Proof.
  intros Hwf. destruct (GoList.elems (o_list o)) as [|e0 es0] eqn:Hes
    using rev_ind.
  - eexists _, _. split; [by apply Pop_empty|done].
  - eexists _, _. split; [by apply Pop_last|].
    apply wf_unlink; [done|]. rewrite Hes. by solve_Permutation.
Qed.

Lemma Shift_safe o :
  wf o → ∃ o' r, Shift o = Some (o', r) ∧ wf o'.
Proof.
  intros Hwf. destruct (GoList.elems (o_list o)) as [|e ys] eqn:Hes.
  - eexists _, _. split; [by apply Shift_empty|done].
  - eexists _, _. split; [by apply Shift_first|].
    apply wf_unlink; [done|]. by rewrite Hes.
Qed.

Lemma exec_safe c o : wf o → ∃ o', exec c o = Some o' ∧ wf o'.
Proof.
  intros Hwf. destruct c as [v|v|v mark after|v mark after|v| |]; simpl.
  - eexists. split; [done|]. by apply Append_wf.
  - eexists. split; [done|]. by apply Prepend_wf.
  - destruct (Insert_safe o v mark after Hwf) as (o' & r & -> & ?). eauto.
  - destruct (Move_safe o v mark after Hwf) as (o' & r & -> & ?). eauto.
  - destruct (Remove_safe o v Hwf) as (o' & r & -> & ?). eauto.
  - destruct (Pop_safe o Hwf) as (o' & r & -> & ?). eauto.
  - destruct (Shift_safe o Hwf) as (o' & r & -> & ?). eauto.
Qed.

Lemma exec_wf c o o' : wf o → exec c o = Some o' → wf o'.
Proof.
  intros Hwf Hrun. destruct (exec_safe c o Hwf) as (o'' & Hrun' & Hwf').
  congruence.
Qed.

(** Every set that a client can hold satisfies the invariant. *)
Lemma reachable_wf o : reachable o → wf o.
Proof.
  induction 1 as [vs|c o o' _ IH Hrun].
  - apply New_wf.
  - by apply (exec_wf c o).
Qed.

(** No call on a set that a client can hold panics. *)
Lemma reachable_exec_total c o : reachable o → is_Some (exec c o).
Proof.
  intros Hwf%reachable_wf. destruct (exec_safe c o Hwf) as (o' & -> & _). eauto.
Qed.

(** ** The contracts of the operations *)

(** C1, index/sequence bijection: on every set reachable from [New] by the
    public operations, [Slice] returns the traversal [vs], [Has v] is true
    exactly for the values in [vs], [vs] has no duplicates, and [Len] is the
    number of values in [vs]. *)
Theorem C1_index_sequence_bijection o :
  reachable o →
  ∃ vs, Slice o = Some vs ∧
        (∀ v, Has v o = true ↔ v ∈ vs) ∧
        NoDup vs ∧
        Len o = Z.of_nat (length vs).
Proof.
  intros Hwf%reachable_wf. exists (values o).
  split; [apply Slice_values|]. split; [intros v; by apply wf_Has|].
  split; [apply Hwf|apply Len_values].
Qed.

(** C2, [Insert] with a mark that is a member: a value that is not a member
    gets a newly allocated node immediately behind ([after]) or in front of
    the node of [mark], the other members keep their order, and the results
    are [(true, nil)]; for a value that is a member the results are
    [(false, nil)] and the set is the same. *)
Theorem C2_Insert_contract o v mark after :
  reachable o → Has mark o = true →
  (Has v o = false →
   ∃ o' vs now x,
     Insert v mark after o = Some (o', (true, None)) ∧
     Slice o = Some vs ∧ Slice o' = Some now ∧
     placed_next_to v mark after vs now ∧
     o_mapping o' !! v = Some (Some x) ∧ GoList.Value x = v ∧
     GoList.addr x ∉ GoList.addr <$> GoList.elems (o_list o)) ∧
  (Has v o = true → Insert v mark after o = Some (o, (false, None))).
Proof.
  intros Hwf%reachable_wf Hmark. split; intros Hv.
  - destruct (Insert_new o v mark after Hwf Hmark Hv)
      as (m & xs & ys & Hsplit & Hval & Hrun).
    eexists _, (values o), _, _. split; [exact Hrun|].
    rewrite !Slice_values. split; [done|]. split; [done|].
    split; [|split; [|split]].
    + exists (GoList.Value <$> xs), (GoList.Value <$> ys).
      unfold values. simpl. rewrite Hsplit, <- Hval.
      destruct after; by rewrite !fmap_app, !fmap_cons.
    + simpl. apply lookup_insert_eq.
    + done.
    + simpl. intros (e & He & Hin)%list_elem_of_fmap.
      destruct Hwf as (_ & Hbound & _). rewrite Forall_forall in Hbound.
      specialize (Hbound e Hin). lia.
  - unfold Insert. by rewrite Hmark, Hv.
Qed.

(** C4, [ErrMarkNotFound]: on every reachable set [Insert] and [Move]
    return; the error is [ErrMarkNotFound] exactly when [mark] is not a
    member; and whenever an error is returned the set is the same as before
    the call. *)
Theorem C4_MarkNotFound o v mark after :
  reachable o →
  (∃ o' added err,
     Insert v mark after o = Some (o', (added, err)) ∧
     (err = Some ErrMarkNotFound ↔ Has mark o = false) ∧
     (err ≠ None → o' = o ∧ added = false)) ∧
  (∃ o' err,
     Move v mark after o = Some (o', err) ∧
     (err = Some ErrMarkNotFound ↔ Has mark o = false) ∧
     (err ≠ None → o' = o)).
Proof.
  intros Hwf%reachable_wf. split.
  - destruct (Has mark o) eqn:Hmark.
    + destruct (Has v o) eqn:Hv.
      * exists o, false, None. unfold Insert. rewrite Hmark, Hv. by repeat split.
      * destruct (Insert_new o v mark after Hwf Hmark Hv)
          as (m & xs & ys & _ & _ & Hrun).
        eexists _, true, None. split; [exact Hrun|]. by repeat split.
    + exists o, false, (Some ErrMarkNotFound). unfold Insert. rewrite Hmark.
      by repeat split.
  - destruct (Has mark o) eqn:Hmark.
    + destruct (Move_safe o v mark after Hwf) as (o' & err & Hrun & _).
      assert (err = None) as ->.
      { revert Hrun. unfold Move. rewrite Hmark. simpl.
        destruct (o_mapping o !! v) as [elem|]; [|congruence].
        destruct (if after then _ else _); simpl; congruence. }
      exists o', None. by repeat split.
    + exists o, (Some ErrMarkNotFound). unfold Move. rewrite Hmark.
      by repeat split.
Qed.

(** C5, [Remove]: for a value that is not a member the result is [false]
    and the set is the same; for a member the result is [true], the value is
    no longer a member, [Len] is one less, and [Slice] is the former [Slice]
    with the one occurrence of the value deleted. *)
Theorem C5_Remove_contract o v :
  reachable o →
  (Has v o = false → Remove v o = Some (o, false)) ∧
  (Has v o = true →
   ∃ o' (xs ys : list T),
     Remove v o = Some (o', true) ∧
     Has v o' = false ∧
     Len o' = Len o - 1 ∧
     Slice o = Some (xs ++ v :: ys) ∧ Slice o' = Some (xs ++ ys) ∧
     v ∉ xs ++ ys).
Proof.
  intros Hwf%reachable_wf. split; intros Hv; [by apply Remove_absent|].
  destruct (Remove_member o v Hwf Hv) as (e & xs & ys & Hsplit & Hval & Hrun).
  eexists _, (GoList.Value <$> xs), (GoList.Value <$> ys).
  split; [exact Hrun|]. rewrite !Slice_values.
  pose proof Hwf as (_ & _ & Hnodup & _). unfold values in Hnodup.
  rewrite Hsplit in Hnodup. apply NoDup_fmap_middle in Hnodup as [Hxs Hys].
  rewrite Hval in Hxs, Hys.
  split; [|split; [|split; [|split]]].
  - apply Has_false_lookup. simpl. apply lookup_delete_eq.
  - unfold Len, GoList.Len. simpl. rewrite Hsplit, !length_app. simpl. lia.
  - unfold values. by rewrite Hsplit, fmap_app, fmap_cons, Hval.
  - unfold values. simpl. by rewrite fmap_app.
  - rewrite elem_of_app. tauto.
Qed.

(** C9, [Front] and [Back]: on a set that is not empty [Front] returns
    [Slice()[0]] and [Back] returns [Slice()[Len()-1]], without dereferencing
    nil; on an empty set both dereference nil. *)
Theorem C9_Front_Back o :
  (0 < Len o →
   ∃ (vs : list T) (x y : T),
     Slice o = Some vs ∧
     vs !! 0%nat = Some x ∧ vs !! Z.to_nat (Len o - 1) = Some y ∧
     Front o = Some x ∧ Back o = Some y) ∧
  (Len o = 0 → Front o = None ∧ Back o = None).
Proof.
  unfold Len, GoList.Len, Front, Back, GoList.Front, GoList.Back.
  rewrite Slice_values. unfold values.
  destruct (GoList.elems (o_list o)) as [|e es] eqn:Hes.
  - split; [simpl; lia|done].
  - split; [intros _|simpl; lia].
    destruct (last (e :: es)) as [f|] eqn:Hlast.
    2:{ apply last_None in Hlast. done. }
    exists (GoList.Value <$> e :: es), (GoList.Value e), (GoList.Value f).
    split; [done|]. split; [done|]. split; [|done].
    rewrite list_lookup_fmap.
    replace (Z.to_nat (Z.of_nat (length (e :: es)) - 1))
      with (pred (length (e :: es))) by (simpl; lia).
    by rewrite <- last_lookup, Hlast.
Qed.

(** C3 as amended, [Move] with a mark that is a member: a value that is
    not a member is left alone and nil is returned; the node of a member
    other than [mark] is unlinked and linked again immediately behind
    ([after]) or in front of the node of [mark], the entry of the value in
    the mapping is the same, and nil is returned; for [mark] itself the set
    is the same and nil is returned. *)
Theorem C3_Move_contract_amended o v mark after :
  reachable o → Has mark o = true →
  (v ≠ mark → Move_contract v mark after o) ∧
  (v = mark → Move v mark after o = Some (o, None)).
Proof.
  intros Hwf%reachable_wf Hmark. split.
  - intros Hne. split; intros Hv; [by apply Move_absent|].
    destruct (Move_member o v mark after Hwf Hmark Hv Hne)
      as (e & m & xs & ys & xs' & ys' & Hsplit & He & Hm & Hsplit' & Hrun).
    eexists _, (GoList.Value <$> xs), (GoList.Value <$> ys), _.
    split; [exact Hrun|]. rewrite !Slice_values. unfold values. simpl.
    split; [by rewrite Hsplit, fmap_app, fmap_cons, He|].
    split; [done|]. split; [|done].
    exists (GoList.Value <$> xs'), (GoList.Value <$> ys').
    rewrite <- fmap_app, Hsplit', <- He, <- Hm.
    destruct after; by rewrite !fmap_app, !fmap_cons.
  - intros ->. by apply Move_self.
Qed.

(** C10, [Move] of a member relative to itself: nil is returned and the
    set is the same, for both values of [after]. *)
Theorem C10_Move_self_noop o v after :
  reachable o → Has v o = true → Move v v after o = Some (o, None).
Proof. intros Hwf%reachable_wf Hv. by apply Move_self. Qed.

(** *** Construction *)

Lemma filter_all (P : T → Prop) `{!∀ w, Decision (P w)} (vs : list T) :
  (∀ w, w ∈ vs → P w) → filter P vs = vs.
Proof.
  induction vs as [|u vs IH]; intros Hall; [done|].
  rewrite filter_cons_True by (apply Hall; by left).
  rewrite IH; [done|]. intros w Hw. apply Hall. by right.
Qed.

Lemma first_occurrences_elem_of (vs : list T) v :
  v ∈ first_occurrences vs ↔ v ∈ vs.
Proof.
  induction vs as [|w vs IH]; simpl; [done|].
  rewrite !elem_of_cons, list_elem_of_filter, IH.
  destruct (decide (v = w)); tauto.
Qed.

Lemma first_occurrences_NoDup (vs : list T) : NoDup (first_occurrences vs).
Proof.
  induction vs as [|w vs IH]; simpl; [constructor|].
  apply NoDup_cons. split.
  - rewrite list_elem_of_filter. by intros [Hne _].
  - by apply NoDup_filter.
Qed.

Lemma first_occurrences_id (vs : list T) : NoDup vs → first_occurrences vs = vs.
Proof.
  induction 1 as [|w vs Hw _ IH]; simpl; [done|]. rewrite IH. f_equal.
  apply filter_all. by intros u Hu ->.
Qed.

(** Appending [vs] one by one adds, behind the members, the first
    occurrences of the values that are not members. *)
Lemma foldl_Append_values (vs : list T) o :
  wf o →
  values (foldl (λ set v, (Append v set).1) o vs)
  = values o ++ filter (λ w, w ∉ values o) (first_occurrences vs).
Proof.
  revert o. induction vs as [|v vs IH]; intros o Hwf; simpl.
  - by rewrite app_nil_r.
  - rewrite IH by by apply Append_wf. rewrite Append_values.
    destruct (Has v o) eqn:Hv.
    + apply (wf_Has o v Hwf) in Hv.
      rewrite filter_cons_False by (by intros Hnot).
      f_equal. symmetry. apply list_filter_filter_l. by intros w Hw ->.
    + apply (wf_Has_false o v Hwf) in Hv.
      rewrite filter_cons_True by done. rewrite <- app_assoc. simpl.
      do 2 f_equal. rewrite list_filter_filter. apply list_filter_iff.
      intros w. rewrite elem_of_app, list_elem_of_singleton. tauto.
Qed.

Lemma New_values (vs : list T) : values (New vs) = first_occurrences vs.
Proof.
  unfold New. rewrite foldl_Append_values by apply wf_empty. simpl.
  apply filter_all. intros w _. apply not_elem_of_nil.
Qed.

(** C8, construction: [New] of a list of values is the empty set with
    [Append] called on each value in order, and its [Slice] is the list of
    first occurrences: later duplicates are dropped, the order of first
    occurrences is kept. *)
Theorem C8_New_dedup (vs : list T) :
  New vs = foldl (λ set v, (Append v set).1) (New []) vs ∧
  Slice (New vs) = Some (first_occurrences vs).
Proof. split; [done|]. by rewrite Slice_values, New_values. Qed.

(** *** Queue operations *)

(** As many calls of [Pop] as there are members return the members from
    the back to the front and leave no node. *)
Lemma pops_all (n : nat) o :
  wf o → length (GoList.elems (o_list o)) = n →
  ∃ o', pops n o = Some (o', (λ v, (v, true)) <$> reverse (values o)) ∧
        GoList.elems (o_list o') = [].
Proof.
  revert o. induction n as [|n IH]; intros o Hwf Hlen.
  - apply nil_length_inv in Hlen. exists o. unfold values. by rewrite Hlen.
  - destruct (GoList.elems (o_list o)) as [|e0 es0] eqn:Hes using rev_ind;
      [done|].
    rewrite length_app in Hlen. simpl in Hlen.
    pose proof (Pop_last o es0 e0 Hwf Hes) as Hpop.
    set (o1 := mkOrderedSet (GoList.mkList es0 (GoList.next_addr (o_list o)))
                 (delete (GoList.Value e0) (o_mapping o))) in *.
    assert (wf o1) as Hwf1.
    { apply wf_unlink; [done|]. rewrite Hes. by solve_Permutation. }
    destruct (IH o1 Hwf1) as (o' & Hrun & Hnil); [simpl; lia|].
    exists o'. split; [|done]. cbn [pops]. rewrite Hpop.
    cbn [mbind option_bind]. rewrite Hrun. cbn [mbind option_bind].
    unfold values. rewrite Hes, fmap_app, reverse_app. done.
Qed.

(** As many calls of [Shift] as there are members return the members from
    the front to the back and leave no node. *)
Lemma shifts_all (n : nat) o :
  wf o → length (GoList.elems (o_list o)) = n →
  ∃ o', shifts n o = Some (o', (λ v, (v, true)) <$> values o) ∧
        GoList.elems (o_list o') = [].
Proof.
  revert o. induction n as [|n IH]; intros o Hwf Hlen.
  - apply nil_length_inv in Hlen. exists o. unfold values. by rewrite Hlen.
  - destruct (GoList.elems (o_list o)) as [|e ys] eqn:Hes; [done|].
    simpl in Hlen.
    pose proof (Shift_first o e ys Hwf Hes) as Hshift.
    set (o1 := mkOrderedSet (GoList.mkList ys (GoList.next_addr (o_list o)))
                 (delete (GoList.Value e) (o_mapping o))) in *.
    assert (wf o1) as Hwf1.
    { apply wf_unlink; [done|]. by rewrite Hes. }
    destruct (IH o1 Hwf1) as (o' & Hrun & Hnil); [simpl; lia|].
    exists o'. split; [|done]. cbn [shifts]. rewrite Hshift.
    cbn [mbind option_bind]. rewrite Hrun. cbn [mbind option_bind].
    unfold values. by rewrite Hes.
Qed.

(** C6, [Pop] and [Shift]: on the set made by appending pairwise distinct
    values [vs] in order, [length vs] calls of [Pop] return the values from
    the last to the first, each with [true], and [length vs] calls of [Shift]
    return them from the first to the last, each with [true]; on a set
    without members both return the zero value with [false] and leave the
    set as it is. *)
Theorem C6_Pop_Shift_duality (vs : list T) (empty : OrderedSet) :
  NoDup vs → Len empty = 0 →
  let o := foldl (λ set v, (Append v set).1) (New []) vs in
  (∃ o', pops (length vs) o = Some (o', (λ v, (v, true)) <$> reverse vs) ∧
         Len o' = 0) ∧
  (∃ o', shifts (length vs) o = Some (o', (λ v, (v, true)) <$> vs) ∧
         Len o' = 0) ∧
  Pop empty = Some (empty, (zeroValue, false)) ∧
  Shift empty = Some (empty, (zeroValue, false)).
Proof.
  intros Hnodup Hempty o.
  assert (wf o) as Hwf by apply New_wf.
  assert (values o = vs) as Hvs.
  { change o with (New vs). by rewrite New_values, first_occurrences_id. }
  assert (length (GoList.elems (o_list o)) = length vs) as Hlen.
  { rewrite <- Hvs. unfold values. by rewrite length_fmap. }
  split; [|split; [|split]].
  - destruct (pops_all (length vs) o Hwf Hlen) as (o' & Hrun & Hnil).
    exists o'. rewrite Hvs in Hrun. split; [done|].
    unfold Len, GoList.Len. by rewrite Hnil.
  - destruct (shifts_all (length vs) o Hwf Hlen) as (o' & Hrun & Hnil).
    exists o'. rewrite Hvs in Hrun. split; [done|].
    unfold Len, GoList.Len. by rewrite Hnil.
  - apply Pop_empty. unfold Len, GoList.Len in Hempty.
    apply nil_length_inv. lia.
  - apply Shift_empty. unfold Len, GoList.Len in Hempty.
    apply nil_length_inv. lia.
Qed.

(** *** Range *)

Lemma logged_call {St E : Type} (loop : Z → T → St → option (option E * St))
    (i : Z) (w : T) (s : St) (log : list (Z * T * option E)) err s' :
  loop i w s = Some (err, s') →
  logged loop i w (s, log) = Some (err, (s', log ++ [(i, w, err)])).
Proof. intros Hcall. unfold logged. simpl. by rewrite Hcall. Qed.

(** The loop of [Range] under a visitor that does not panic: the logged
    visitor and the visitor itself end alike, and the log is either all the
    positions from [i] on, each without error, with result nil, or the
    positions up to the first one where the visitor returned an error, with
    that error as the result and the state of that call as the final
    state. *)
Lemma Range_loop_logged {St E : Type}
    (loop : Z → T → St → option (option E * St)) es i (s : St)
    (log0 : list (Z * T * option E)) :
  (∀ j w s0, is_Some (loop j w s0)) →
  ∃ r s' log,
    Range_loop (logged loop) es i (s, log0) = Some (r, (s', log0 ++ log)) ∧
    Range_loop loop es i s = Some (r, s') ∧
    ((r = None ∧
      log = (λ p, (p, None)) <$> positions_from i (GoList.Value <$> es)) ∨
     (∃ err pre j w post s0,
        r = Some err ∧
        positions_from i (GoList.Value <$> es) = pre ++ (j, w) :: post ∧
        log = ((λ p, (p, None)) <$> pre) ++ [(j, w, Some err)] ∧
        loop j w s0 = Some (Some err, s'))).
Proof.
  intros Htotal. revert i s log0.
  induction es as [|e es IH]; intros i s log0.
  - exists None, s, []. rewrite app_nil_r. split; [done|]. split; [done|].
    by left.
  - destruct (Htotal i (GoList.Value e) s) as [[err s1] Hcall].
    cbn [Range_loop]. rewrite (logged_call loop _ _ _ log0 _ _ Hcall), Hcall.
    cbn [mbind option_bind].
    destruct err as [err|].
    + exists (Some err), s1, [(i, GoList.Value e, Some err)].
      split; [done|]. split; [done|]. right.
      exists err, [], i, (GoList.Value e),
        (positions_from (i + 1) (GoList.Value <$> es)), s.
      by repeat split.
    + destruct (IH (i + 1) s1 (log0 ++ [(i, GoList.Value e, None)]))
        as (r & s' & log & Hrun & Hrun' & Hlog).
      exists r, s', ((i, GoList.Value e, None) :: log).
      split; [by rewrite Hrun, <- app_assoc|]. split; [done|].
      destruct Hlog
        as [[-> ->]|(err & pre & j & w & post & s0 & -> & Hpos & -> & Hlast)].
      * left. by split.
      * right. exists err, ((i, GoList.Value e) :: pre), j, w, post, s0.
        split; [done|]. rewrite fmap_cons. cbn [positions_from].
        by rewrite Hpos.
Qed.

(** C7, [Range]: with a visitor that does not panic, [Range] returns, and
    the calls of the visitor are, in order, the values of the nodes of the
    list from the front node to the back node ([values o], which is also
    what [Slice] returns), with the positions 0, 1, 2, ...; either no call
    returned an error, every member was visited once, and nil is returned; or
    the calls end with the first one that returned an error, no later member
    is visited, and the error of that call is returned. *)
Theorem C7_Range_order_short_circuit {St E : Type}
    (loop : Z → T → St → option (option E * St)) o (s : St) :
  (∀ j w s0, is_Some (loop j w s0)) →
  ∃ r s' log,
    Slice o = Some (values o) ∧
    Range (logged loop) o (s, []) = Some (r, (s', log)) ∧
    Range loop o s = Some (r, s') ∧
    ((r = None ∧ log = (λ p, (p, None)) <$> positions (values o)) ∨
     (∃ err pre j w post s0,
        r = Some err ∧
        positions (values o) = pre ++ (j, w) :: post ∧
        log = ((λ p, (p, None)) <$> pre) ++ [(j, w, Some err)] ∧
        loop j w s0 = Some (Some err, s'))).
Proof.
  intros Htotal.
  destruct (Range_loop_logged loop (GoList.elems (o_list o)) 0 s [] Htotal)
    as (r & s' & log & Hrun & Hrun' & Hlog).
  exists r, s', log. split; [apply Slice_values|]. by repeat split.
Qed.

(** ** Further properties of the operations *)

(** A sequence whose images under [f] are distinct splits in one way only
    around an element with a given image. *)
Lemma NoDup_fmap_split_inj {A B : Type} (f : A → B) (l1 l2 k1 k2 : list A) (a b : A) :
  NoDup (f <$> (l1 ++ a :: l2)) → l1 ++ a :: l2 = k1 ++ b :: k2 → f a = f b →
  l1 = k1 ∧ a = b ∧ l2 = k2.
Proof.
  revert k1. induction l1 as [|c l1 IH]; intros k1 Hnd Heq Hab.
  - destruct k1 as [|c k1]; simplify_eq/=; [done|].
    exfalso. apply NoDup_cons in Hnd as [Hc _]. apply Hc.
    rewrite Hab. apply list_elem_of_fmap_2, elem_of_app. right. by left.
  - destruct k1 as [|c' k1]; injection Heq as Hc Heq; subst; simpl in Hnd.
    + exfalso. apply NoDup_cons in Hnd as [Hc _]. apply Hc.
      rewrite <- Hab. apply list_elem_of_fmap_2, elem_of_app. right. by left.
    + apply NoDup_cons in Hnd as [_ Hnd].
      destruct (IH k1 Hnd Heq Hab) as (-> & -> & ->). done.
Qed.

(** X1, [Append]: a member is not appended, the result is [false] and the
    set is the same; a value that is not a member becomes the last member,
    the result is [true], [Len] is one more, and no other value changes its
    membership.  This holds for every set. *)
Theorem X1_Append_contract o v :
  (Has v o = true → Append v o = (o, false)) ∧
  (Has v o = false →
   ∃ o' (vs : list T),
     Append v o = (o', true) ∧
     Slice o = Some vs ∧ Slice o' = Some (vs ++ [v]) ∧
     Has v o' = true ∧ Len o' = Len o + 1 ∧ Back o' = Some v ∧
     ∀ w, w ≠ v → Has w o' = Has w o).
Proof.
  split; intros Hv; [by apply Append_member|].
  eexists _, (values o). split; [by apply Append_new|].
  rewrite !Slice_values. split; [done|]. split; [|split; [|split; [|split]]].
  - unfold values. simpl. by rewrite fmap_app.
  - apply Has_true_lookup. simpl. rewrite lookup_insert_eq. eauto.
  - unfold Len, GoList.Len. simpl. rewrite length_app. simpl. lia.
  - unfold Back, GoList.Back. simpl. by rewrite last_snoc.
  - intros w Hne. unfold Has. simpl. by rewrite lookup_insert_ne.
Qed.

(** X2, [Prepend]: a member is not prepended, the result is [false] and the
    set is the same; a value that is not a member becomes the first member,
    the result is [true], [Len] is one more, and no other value changes its
    membership.  This holds for every set. *)
Theorem X2_Prepend_contract o v :
  (Has v o = true → Prepend v o = (o, false)) ∧
  (Has v o = false →
   ∃ o' (vs : list T),
     Prepend v o = (o', true) ∧
     Slice o = Some vs ∧ Slice o' = Some (v :: vs) ∧
     Has v o' = true ∧ Len o' = Len o + 1 ∧ Front o' = Some v ∧
     ∀ w, w ≠ v → Has w o' = Has w o).
Proof.
  split; intros Hv; unfold Prepend; rewrite Hv; [done|].
  eexists _, (values o). split; [done|].
  rewrite !Slice_values. split; [done|]. split; [done|].
  split; [|split; [|split]].
  - apply Has_true_lookup. simpl. rewrite lookup_insert_eq. eauto.
  - unfold Len, GoList.Len. simpl. lia.
  - done.
  - intros w Hne. unfold Has. simpl. by rewrite lookup_insert_ne.
Qed.

(** X3, [RangeReverse]: with a visitor that does not panic, [RangeReverse]
    returns, and the calls of the visitor are, in order, the members from the
    back to the front with the positions 0, 1, 2, ... counted from the back;
    either no call returned an error, every member was visited once, and nil
    is returned; or the calls end with the first one that returned an error,
    and the error of that call is returned. *)
Theorem X3_RangeReverse_order_short_circuit {St E : Type}
    (loop : Z → T → St → option (option E * St)) o (s : St) :
  (∀ j w s0, is_Some (loop j w s0)) →
  ∃ (vs : list T) r s' log,
    Slice o = Some vs ∧
    RangeReverse (logged loop) o (s, []) = Some (r, (s', log)) ∧
    RangeReverse loop o s = Some (r, s') ∧
    ((r = None ∧ log = (λ p, (p, None)) <$> positions (reverse vs)) ∨
     (∃ err pre j w post s0,
        r = Some err ∧
        positions (reverse vs) = pre ++ (j, w) :: post ∧
        log = ((λ p, (p, None)) <$> pre) ++ [(j, w, Some err)] ∧
        loop j w s0 = Some (Some err, s'))).
Proof.
  intros Htotal.
  destruct (Range_loop_logged loop (reverse (GoList.elems (o_list o))) 0 s []
              Htotal) as (r & s' & log & Hrun & Hrun' & Hlog).
  exists (values o), r, s', log. split; [apply Slice_values|].
  unfold positions, values. rewrite <- fmap_reverse. by repeat split.
Qed.

(** X4, [Slice]: on every set, also one that no history of calls produces,
    no store of [Slice] is out of range; [Slice] returns as many values as
    [Len] says, the first of them is what [Front] returns and the last what
    [Back] returns. *)
Theorem X4_Slice_safe o :
  ∃ vs : list T,
    Slice o = Some vs ∧ Z.of_nat (length vs) = Len o ∧
    Front o = head vs ∧ Back o = last vs.
Proof.
  exists (values o). split; [apply Slice_values|].
  split; [by rewrite Len_values|].
  unfold Front, Back, GoList.Front, GoList.Back, values.
  rewrite fmap_last. split; [|by destruct (last _)].
  by destruct (GoList.elems (o_list o)).
Qed.

(** X5, no panic: on a set that a client can hold, none of [Pop], [Shift],
    [Remove], [Insert] and [Move] dereferences nil, whatever the arguments. *)
Theorem X5_no_panic o :
  reachable o →
  is_Some (Pop o) ∧ is_Some (Shift o) ∧
  (∀ v, is_Some (Remove v o)) ∧
  (∀ v mark after, is_Some (Insert v mark after o)) ∧
  (∀ v mark after, is_Some (Move v mark after o)).
Proof.
  intros Hwf%reachable_wf. split; [|split; [|split; [|split]]].
  - destruct (Pop_safe o Hwf) as (o' & r & -> & _). eauto.
  - destruct (Shift_safe o Hwf) as (o' & r & -> & _). eauto.
  - intros v. destruct (Remove_safe o v Hwf) as (o' & r & -> & _). eauto.
  - intros v mark after.
    destruct (Insert_safe o v mark after Hwf) as (o' & r & -> & _). eauto.
  - intros v mark after.
    destruct (Move_safe o v mark after Hwf) as (o' & r & -> & _). eauto.
Qed.

(** Under the invariant the mapping is the map made from the nodes. *)
Lemma wf_mapping_nodes o :
  wf o →
  o_mapping o =
    list_to_map ((λ e, (GoList.Value e, Some e)) <$> GoList.elems (o_list o)).
Proof.
  intros (_ & _ & Hval & Hmap). apply map_eq. intros v. apply option_eq.
  intros p. rewrite <- elem_of_list_to_map.
  2:{ unfold values in Hval. by rewrite <- list_fmap_compose. }
  rewrite Hmap, list_elem_of_fmap. split.
  - intros (e & -> & Hin & <-). eauto.
  - intros (e & [= -> ->] & Hin). eauto.
Qed.

(** X6, the two halves agree: on a set that a client can hold, every key of
    the mapping is mapped to a node of the list, never to nil, and that node
    holds the key; every node of the list is the entry of its value; no two
    nodes have the same address; and the mapping has as many keys as the
    list has nodes. *)
Theorem X6_mapping_agrees_with_list o :
  reachable o →
  (∀ v p, o_mapping o !! v = Some p →
          ∃ e, p = Some e ∧ e ∈ GoList.elems (o_list o) ∧ GoList.Value e = v) ∧
  (∀ e, e ∈ GoList.elems (o_list o) →
        o_mapping o !! GoList.Value e = Some (Some e)) ∧
  NoDup (GoList.addr <$> GoList.elems (o_list o)) ∧
  Z.of_nat (size (o_mapping o)) = Len o.
Proof.
  intros Hwf%reachable_wf. pose proof Hwf as (Haddr & _ & Hval & Hmap).
  split; [|split; [|split]].
  - intros v p Hp. by apply Hmap.
  - intros e Hin. apply Hmap. eauto.
  - done.
  - rewrite (wf_mapping_nodes o Hwf) at 1. rewrite map_size_list_to_map.
    + unfold Len, GoList.Len. by rewrite length_fmap.
    + unfold values in Hval. by rewrite <- list_fmap_compose.
Qed.

(** Membership looks at the mapping only. *)
Lemma Has_insert l o v p w :
  Has w (mkOrderedSet l (<[v := p]> (o_mapping o))) = true ↔ w = v ∨ Has w o = true.
Proof.
  rewrite !Has_true_lookup. simpl. rewrite lookup_insert.
  case_decide as Hw.
  - subst. split; [by left|eauto].
  - split; [by right|]. by intros [->|?].
Qed.

Lemma Has_delete l o v w :
  Has w (mkOrderedSet l (delete v (o_mapping o))) = true ↔ w ≠ v ∧ Has w o = true.
Proof.
  rewrite !Has_true_lookup. simpl. rewrite lookup_delete.
  case_decide as Hw.
  - subst. split; [by intros [? ?]|]. by intros [? _].
  - split; [|by intros [_ ?]]. intros ?. split; [by intros ->|done].
Qed.

Lemma Pop_inv o o' r :
  Pop o = Some (o', r) →
  o' = o ∧ r = (zeroValue, false) ∧ Len o ≤ 0 ∨
  ∃ e l, GoList.Back (o_list o) = Some e ∧ r = (GoList.Value e, true) ∧
         o' = mkOrderedSet l (delete (GoList.Value e) (o_mapping o)).
Proof.
  unfold Pop. case_bool_decide as Hlen.
  - destruct (GoList.Back (o_list o)) as [e|]; [|done]. simpl.
    intros [= <- <-]. right. eauto.
  - intros [= <- <-]. left. repeat split. lia.
Qed.

Lemma Shift_inv o o' r :
  Shift o = Some (o', r) →
  o' = o ∧ r = (zeroValue, false) ∧ Len o ≤ 0 ∨
  ∃ e l, GoList.Front (o_list o) = Some e ∧ r = (GoList.Value e, true) ∧
         o' = mkOrderedSet l (delete (GoList.Value e) (o_mapping o)).
Proof.
  unfold Shift. case_bool_decide as Hlen.
  - destruct (GoList.Front (o_list o)) as [e|]; [|done]. simpl.
    intros [= <- <-]. right. eauto.
  - intros [= <- <-]. left. repeat split. lia.
Qed.

Lemma Insert_inv o v mark after o' r :
  Insert v mark after o = Some (o', r) →
  o' = o ∧ r.1 = false ∨
  Has v o = false ∧ r = (true, None) ∧
  ∃ l p, o' = mkOrderedSet l (<[v := p]> (o_mapping o)).
Proof.
  unfold Insert. destruct (Has mark o); simpl; [|intros [= <- <-]; by left].
  destruct (Has v o); [intros [= <- <-]; by left|].
  destruct (if after then _ else _) as [[p l]|]; [|done]. simpl.
  intros [= <- <-]. right. eauto.
Qed.

Lemma Move_inv o v mark after o' r :
  Move v mark after o = Some (o', r) →
  ∃ l, o' = mkOrderedSet l (o_mapping o).
Proof.
  unfold Move. destruct (Has mark o); simpl.
  - destruct (o_mapping o !! v) as [elem|].
    + destruct (if after then _ else _) as [l|]; [|done]. simpl.
      intros [= <- <-]. eauto.
    + intros [= <- <-]. exists (o_list o). by destruct o.
  - intros [= <- <-]. exists (o_list o). by destruct o.
Qed.

Lemma Remove_inv o v o' r :
  Remove v o = Some (o', r) →
  o' = o ∧ r = false ∧ Has v o = false ∨
  r = true ∧ Has v o = true ∧ ∃ l, o' = mkOrderedSet l (delete v (o_mapping o)).
Proof.
  unfold Remove. destruct (o_mapping o !! v) as [elem|] eqn:Hv.
  - destruct (GoList.Remove elem (o_list o)) as [[x l]|]; [|done]. simpl.
    intros [= <- <-]. right. split; [done|]. split; [|eauto].
    apply Has_true_lookup. eauto.
  - intros [= <- <-]. left. split; [done|]. split; [done|].
    by apply Has_false_lookup.
Qed.

(** X7, who changes membership: whatever the set, when a call returns, a
    value that was not a member and is one afterwards was the argument of
    [Append], [Prepend] or [Insert]; a value that was a member and is none
    afterwards was the argument of [Remove], the last member under [Pop] or
    the first member under [Shift].  So [Move] changes no membership, and no
    call changes the membership of a value other than its own. *)
Theorem X7_membership_changes (c : op) o o' w :
  exec c o = Some o' →
  (Has w o = false → Has w o' = true →
   c = OpAppend w ∨ c = OpPrepend w ∨ ∃ mark after, c = OpInsert w mark after) ∧
  (Has w o = true → Has w o' = false →
   c = OpRemove w ∨ (c = OpPop ∧ Back o = Some w) ∨ (c = OpShift ∧ Front o = Some w)).
Proof.
  destruct c as [v|v|v mark after|v mark after|v| |]; simpl.
  - intros [= <-]. destruct (Has v o) eqn:Hv.
    + rewrite Append_member by done. simpl. split; congruence.
    + rewrite Append_new by done. simpl. split; intros Hw Hw'.
      * apply Has_insert in Hw' as [->|?]; [by left|congruence].
      * apply not_true_iff_false in Hw'. exfalso. apply Hw', Has_insert. by right.
  - intros [= <-]. unfold Prepend. destruct (Has v o) eqn:Hv; simpl.
    + split; congruence.
    + split; intros Hw Hw'.
      * apply Has_insert in Hw' as [->|?]; [right; by left|congruence].
      * apply not_true_iff_false in Hw'. exfalso. apply Hw', Has_insert. by right.
  - intros ([o1 r] & Hrun & ->)%fmap_Some. simpl.
    apply Insert_inv in Hrun as [[-> _]|(_ & _ & l & p & ->)].
    + split; congruence.
    + split; intros Hw Hw'.
      * apply Has_insert in Hw' as [->|?]; [right; right; eauto|congruence].
      * apply not_true_iff_false in Hw'. exfalso. apply Hw', Has_insert. by right.
  - intros ([o1 r] & Hrun & ->)%fmap_Some. simpl.
    apply Move_inv in Hrun as [l ->]. unfold Has. simpl. split; congruence.
  - intros ([o1 r] & Hrun & ->)%fmap_Some. simpl.
    apply Remove_inv in Hrun as [(-> & _)|(_ & _ & l & ->)].
    + split; congruence.
    + split; intros Hw Hw'.
      * apply Has_delete in Hw' as [_ ?]. congruence.
      * left. f_equal. destruct (decide (w = v)) as [|Hne]; [done|].
        apply not_true_iff_false in Hw'. exfalso. by apply Hw', Has_delete.
  - intros ([o1 r] & Hrun & ->)%fmap_Some. simpl.
    apply Pop_inv in Hrun as [(-> & _)|(e & l & Hback & _ & ->)].
    + split; congruence.
    + split; intros Hw Hw'.
      * apply Has_delete in Hw' as [_ ?]. congruence.
      * right. left. split; [done|]. unfold Back. rewrite Hback. simpl. f_equal.
        destruct (decide (w = GoList.Value e)) as [|Hne]; [done|].
        apply not_true_iff_false in Hw'. exfalso. by apply Hw', Has_delete.
  - intros ([o1 r] & Hrun & ->)%fmap_Some. simpl.
    apply Shift_inv in Hrun as [(-> & _)|(e & l & Hfront & _ & ->)].
    + split; congruence.
    + split; intros Hw Hw'.
      * apply Has_delete in Hw' as [_ ?]. congruence.
      * right. right. split; [done|]. unfold Front. rewrite Hfront. simpl. f_equal.
        destruct (decide (w = GoList.Value e)) as [|Hne]; [done|].
        apply not_true_iff_false in Hw'. exfalso. by apply Hw', Has_delete.
Qed.

(** X8, what [Move] keeps: on a set that a client can hold, whatever
    [Move] does and returns, the mapping is the same, [Len] is the same, the
    members are the same up to order, and the members other than [v] are in
    the same order as before. *)
Theorem X8_Move_preserves o v mark after o' r :
  reachable o → Move v mark after o = Some (o', r) →
  o_mapping o' = o_mapping o ∧ Len o' = Len o ∧
  ∃ vs vs' : list T,
    Slice o = Some vs ∧ Slice o' = Some vs' ∧ vs' ≡ₚ vs ∧
    filter (λ w, w ≠ v) vs' = filter (λ w, w ≠ v) vs.
Proof.
  intros Hwf%reachable_wf Hrun.
  assert (o' = o ∨
          ∃ e m xs ys xs' ys',
            GoList.elems (o_list o) = xs ++ e :: ys ∧ GoList.Value e = v ∧
            xs ++ ys = xs' ++ m :: ys' ∧
            o' = mkOrderedSet
                   (GoList.mkList
                      (if after then xs' ++ m :: e :: ys' else xs' ++ e :: m :: ys')
                      (GoList.next_addr (o_list o)))
                   (o_mapping o)) as [->|Hmoved].
  { destruct (Has mark o) eqn:Hmark.
    - destruct (Has v o) eqn:Hv.
      + destruct (decide (v = mark)) as [->|Hne].
        * rewrite Move_self in Hrun by done. left. congruence.
        * destruct (Move_member o v mark after Hwf Hmark Hv Hne)
            as (e & m & xs & ys & xs' & ys' & Hsplit & He & _ & Hsplit' & Hrun').
          right. exists e, m, xs, ys, xs', ys'. repeat (split; [done|]).
          congruence.
      + rewrite Move_absent in Hrun by done. left. congruence.
    - unfold Move in Hrun. rewrite Hmark in Hrun. left. simpl in Hrun. congruence. }
  { split; [done|]. split; [done|]. exists (values o), (values o).
    by rewrite Slice_values. }
  destruct Hmoved as (e & m & xs & ys & xs' & ys' & Hsplit & He & Hsplit' & ->).
  assert (values (mkOrderedSet
                    (GoList.mkList
                       (if after then xs' ++ m :: e :: ys' else xs' ++ e :: m :: ys')
                       (GoList.next_addr (o_list o)))
                    (o_mapping o)) ≡ₚ values o) as Hperm.
  { unfold values. simpl. rewrite Hsplit. apply fmap_Permutation.
    transitivity (e :: (xs ++ ys)); [|by solve_Permutation].
    rewrite Hsplit'. destruct after; by solve_Permutation. }
  split; [done|]. split.
  { rewrite !Len_values. by rewrite Hperm. }
  eexists _, _. rewrite !Slice_values. split; [done|]. split; [done|].
  split; [done|]. unfold values. simpl. rewrite Hsplit.
  transitivity (filter (λ w, w ≠ v) (GoList.Value <$> (xs ++ ys))).
  - rewrite Hsplit'. destruct after;
      rewrite !fmap_app, !filter_app, !fmap_cons, !filter_cons, He;
      repeat case_decide; done.
  - rewrite !fmap_app, !filter_app, !fmap_cons, !filter_cons, He.
    by case_decide.
Qed.

(** X9, one call of [Pop]: on a set that a client can hold and that has a
    member, [Pop] returns the last member, which is what [Back] returns, with
    [true]; afterwards that value is no member, [Len] is one less, and
    [Slice] is the former [Slice] without its last value. *)
Theorem X9_Pop_contract o :
  reachable o → 0 < Len o →
  ∃ o' (vs : list T) (y : T),
    Pop o = Some (o', (y, true)) ∧ Back o = Some y ∧
    Slice o = Some (vs ++ [y]) ∧ Slice o' = Some vs ∧
    Has y o' = false ∧ (y ∉ vs) ∧ Len o' = Len o - 1.
Proof.
  intros Hwf%reachable_wf Hlen.
  destruct (GoList.elems (o_list o)) as [|e0 es0] eqn:Hes using rev_ind.
  { unfold Len, GoList.Len in Hlen. rewrite Hes in Hlen. simpl in Hlen. lia. }
  clear IHes0. eexists _, (GoList.Value <$> es0), (GoList.Value e0).
  split; [by apply Pop_last|]. rewrite !Slice_values.
  pose proof Hwf as (_ & _ & Hval & _). unfold values in *. rewrite Hes in Hval.
  apply NoDup_fmap_middle in Hval as [Hfresh _].
  split; [|split; [|split; [|split; [|split]]]].
  - unfold Back, GoList.Back. rewrite Hes, last_snoc. done.
  - by rewrite Hes, fmap_app.
  - done.
  - apply Has_false_lookup. simpl. apply lookup_delete_eq.
  - done.
  - unfold Len, GoList.Len. simpl. rewrite Hes, length_app. simpl. lia.
Qed.

(** X10, one call of [Shift]: on a set that a client can hold and that has
    a member, [Shift] returns the first member, which is what [Front]
    returns, with [true]; afterwards that value is no member, [Len] is one
    less, and [Slice] is the former [Slice] without its first value. *)
Theorem X10_Shift_contract o :
  reachable o → 0 < Len o →
  ∃ o' (vs : list T) (y : T),
    Shift o = Some (o', (y, true)) ∧ Front o = Some y ∧
    Slice o = Some (y :: vs) ∧ Slice o' = Some vs ∧
    Has y o' = false ∧ (y ∉ vs) ∧ Len o' = Len o - 1.
Proof.
  intros Hwf%reachable_wf Hlen.
  destruct (GoList.elems (o_list o)) as [|e es] eqn:Hes.
  { unfold Len, GoList.Len in Hlen. rewrite Hes in Hlen. simpl in Hlen. lia. }
  eexists _, (GoList.Value <$> es), (GoList.Value e).
  split; [by apply Shift_first|]. rewrite !Slice_values.
  pose proof Hwf as (_ & _ & Hval & _). unfold values in *. rewrite Hes in Hval.
  apply (NoDup_fmap_middle _ []) in Hval as [_ Hfresh].
  split; [|split; [|split; [|split; [|split]]]].
  - unfold Front, GoList.Front. by rewrite Hes.
  - by rewrite Hes.
  - done.
  - apply Has_false_lookup. simpl. apply lookup_delete_eq.
  - done.
  - unfold Len, GoList.Len. simpl. rewrite Hes. simpl. lia.
Qed.

(** X11, push then pop: on a set that a client can hold, appending a
    value that is not a member and then calling [Pop] returns that value with
    [true]; prepending it and then calling [Shift] does too; either way the
    nodes and the mapping are the ones before the two calls. *)
Theorem X11_push_pop_round_trip o v :
  reachable o → Has v o = false →
  (∃ o', Pop (Append v o).1 = Some (o', (v, true)) ∧
         GoList.elems (o_list o') = GoList.elems (o_list o) ∧
         o_mapping o' = o_mapping o ∧ Slice o' = Slice o) ∧
  (∃ o', Shift (Prepend v o).1 = Some (o', (v, true)) ∧
         GoList.elems (o_list o') = GoList.elems (o_list o) ∧
         o_mapping o' = o_mapping o ∧ Slice o' = Slice o).
Proof.
  intros Hwf%reachable_wf Hv. pose proof Hv as Hnone%Has_false_lookup. split.
  - pose proof (Append_wf o v Hwf) as Hwf1. rewrite Append_new in * by done.
    cbn [fst] in *.
    pose proof (Pop_last _ _ _ Hwf1 eq_refl) as Hpop. simpl in Hpop.
    eexists. split; [exact Hpop|]. simpl.
    rewrite delete_insert_id by done. by rewrite !Slice_values.
  - pose proof (Prepend_wf o v Hwf) as Hwf1. unfold Prepend in *.
    rewrite Hv in *. cbn [fst GoList.PushFront] in *.
    pose proof (Shift_first _ _ _ Hwf1 eq_refl) as Hshift. simpl in Hshift.
    eexists. split; [exact Hshift|]. simpl.
    rewrite delete_insert_id by done. by rewrite !Slice_values.
Qed.

(** X12, insert then remove: on a set that a client can hold, inserting a
    value that is not a member next to a member and then removing it returns
    [true] and leaves the nodes and the mapping as they were before the two
    calls. *)
Theorem X12_Insert_Remove_round_trip o v mark after :
  reachable o → Has mark o = true → Has v o = false →
  ∃ o1 o2,
    Insert v mark after o = Some (o1, (true, None)) ∧
    Remove v o1 = Some (o2, true) ∧
    GoList.elems (o_list o2) = GoList.elems (o_list o) ∧
    o_mapping o2 = o_mapping o ∧ Slice o2 = Slice o.
Proof.
  intros Hwf%reachable_wf Hmark Hv. pose proof Hv as Hnone%Has_false_lookup.
  destruct (Insert_new o v mark after Hwf Hmark Hv)
    as (m & xs & ys & Hsplit & Hm & Hrun).
  destruct (Insert_safe o v mark after Hwf) as (o1 & r & Hrun1 & Hwf1).
  rewrite Hrun in Hrun1. injection Hrun1 as <- <-.
  eexists _, _. split; [exact Hrun|].
  set (x := GoList.mkElement (GoList.next_addr (o_list o)) v) in *.
  pose proof Hwf1 as (Haddr1 & _). simpl in Haddr1.
  unfold Remove. simpl. rewrite lookup_insert_eq.
  unfold GoList.Remove. cbn [mbind option_bind].
  assert (GoList.unlink (GoList.addr x)
            (if after then xs ++ m :: x :: ys else xs ++ x :: m :: ys)
          = xs ++ m :: ys) as Hunlink.
  { destruct after.
    - replace (xs ++ m :: x :: ys) with ((xs ++ [m]) ++ x :: ys) in *
        by by rewrite <- app_assoc.
      apply NoDup_fmap_middle in Haddr1 as [H1 H2].
      rewrite unlink_middle by done. by rewrite <- app_assoc.
    - apply NoDup_fmap_middle in Haddr1 as [H1 H2]. by rewrite unlink_middle. }
  rewrite member_elem_of by (destruct after; set_solver).
  cbn [GoList.elems GoList.addr GoList.Value GoList.next_addr].
  rewrite Hunlink. split; [done|]. simpl.
  rewrite delete_insert_id by done. rewrite <- Hsplit.
  split; [done|]. split; [done|]. rewrite !Slice_values. unfold values. simpl.
  by rewrite Hsplit.
Qed.

(** X13, inserting at the ends: on a set that a client can hold, inserting
    a value that is not a member behind the last member gives the very set
    that [Append] gives, and inserting it in front of the first member gives
    the very set that [Prepend] gives. *)
Theorem X13_Insert_at_ends o v mark :
  reachable o → Has v o = false →
  (Back o = Some mark →
   Insert v mark true o = Some ((Append v o).1, (true, None))) ∧
  (Front o = Some mark →
   Insert v mark false o = Some ((Prepend v o).1, (true, None))).
Proof.
  intros Hwf%reachable_wf Hv. pose proof Hwf as (_ & _ & Hval & _).
  split; intros Hend.
  - unfold Back, GoList.Back in Hend.
    destruct (last (GoList.elems (o_list o))) as [e|] eqn:Hlast; [|done].
    injection Hend as <-. apply last_Some in Hlast as [es Hes].
    assert (Has (GoList.Value e) o = true) as Hmark.
    { apply wf_Has; [done|]. unfold values. rewrite Hes.
      apply list_elem_of_fmap_2, elem_of_app. right. by left. }
    destruct (Insert_new o v (GoList.Value e) true Hwf Hmark Hv)
      as (m & xs & ys & Hsplit & Hm & Hrun).
    unfold values in Hval. rewrite Hsplit in Hval. rewrite Hsplit in Hes.
    destruct (NoDup_fmap_split_inj GoList.Value xs ys es [] m e Hval Hes Hm)
      as (-> & -> & ->).
    rewrite Hrun, Append_new by done. simpl. rewrite Hsplit.
    by rewrite <- app_assoc.
  - unfold Front, GoList.Front in Hend.
    destruct (head (GoList.elems (o_list o))) as [e|] eqn:Hhead; [|done].
    injection Hend as <-. apply head_Some in Hhead as [es Hes].
    assert (Has (GoList.Value e) o = true) as Hmark.
    { apply wf_Has; [done|]. unfold values. rewrite Hes.
      apply list_elem_of_fmap_2. by left. }
    destruct (Insert_new o v (GoList.Value e) false Hwf Hmark Hv)
      as (m & xs & ys & Hsplit & Hm & Hrun).
    unfold values in Hval. rewrite Hsplit in Hval. rewrite Hsplit in Hes.
    destruct (NoDup_fmap_split_inj GoList.Value xs ys [] es m e Hval Hes Hm)
      as (-> & -> & ->).
    rewrite Hrun. unfold Prepend. rewrite Hv. simpl. by rewrite Hsplit.
Qed.

Lemma first_occurrences_length (vs : list T) :
  (length (first_occurrences vs) ≤ length vs)%nat.
Proof.
  induction vs as [|w vs IH]; simpl; [done|].
  pose proof (length_filter (λ u, u ≠ w) (first_occurrences vs)). lia.
Qed.

Lemma first_occurrences_full (vs : list T) :
  length (first_occurrences vs) = length vs → NoDup vs.
Proof.
  induction vs as [|w vs IH]; simpl; [constructor|]. intros Hlen.
  pose proof (length_filter (λ u, u ≠ w) (first_occurrences vs)) as Hle.
  pose proof (first_occurrences_length vs) as Hle'.
  apply NoDup_cons. split; [|apply IH; lia].
  intros Hin%first_occurrences_elem_of.
  pose proof (length_filter_lt (λ u, u ≠ w) (first_occurrences vs) w Hin) as Hlt.
  assert (¬ w ≠ w) as Hww by (by intros Hne). specialize (Hlt Hww). lia.
Qed.

(** X14, what [New] holds: the members of [New(vs...)] are exactly the
    values of [vs]; [Len] is at most the number of values given, and is that
    number exactly when no value is given twice. *)
Theorem X14_New_members (vs : list T) :
  (∀ v, Has v (New vs) = true ↔ v ∈ vs) ∧
  Len (New vs) ≤ Z.of_nat (length vs) ∧
  (Len (New vs) = Z.of_nat (length vs) ↔ NoDup vs).
Proof.
  pose proof (New_wf vs) as Hwf. split; [|split].
  - intros v. rewrite (wf_Has _ v Hwf), New_values.
    apply first_occurrences_elem_of.
  - rewrite Len_values, New_values. pose proof (first_occurrences_length vs). lia.
  - rewrite Len_values, New_values. split.
    + intros Hlen. apply first_occurrences_full. lia.
    + intros Hnd. by rewrite first_occurrences_id.
Qed.

(** X15, copying a set: for a set that a client can hold, [New] of the
    values that [Slice] returns has the same [Slice] and the same members. *)
Theorem X15_New_of_Slice o (vs : list T) :
  reachable o → Slice o = Some vs →
  Slice (New vs) = Some vs ∧ Len (New vs) = Len o ∧
  ∀ v, Has v (New vs) = Has v o.
Proof.
  intros Hwf%reachable_wf. rewrite Slice_values. intros [= <-].
  pose proof Hwf as (_ & _ & Hval & _).
  assert (values (New (values o)) = values o) as Hsame
    by by rewrite New_values, first_occurrences_id.
  split; [by rewrite Slice_values, Hsame|].
  split; [by rewrite !Len_values, Hsame|].
  intros v. pose proof (wf_Has (New (values o)) v (New_wf _)) as Hnew.
  pose proof (wf_Has o v Hwf) as Hold. rewrite Hsame in Hnew.
  destruct (Has v (New (values o))), (Has v o); try done.
  - symmetry. apply Hold, Hnew. done.
  - apply Hnew, Hold. done.
Qed.

(** X16, doing it twice: whatever the set, a second [Append] or [Prepend]
    of the same value returns [false] and changes nothing, and after a
    [Remove] that returned, a second [Remove] of the same value returns
    [false] and changes nothing. *)
Theorem X16_second_call_is_noop o v :
  Append v (Append v o).1 = ((Append v o).1, false) ∧
  Prepend v (Prepend v o).1 = ((Prepend v o).1, false) ∧
  (∀ o1 r, Remove v o = Some (o1, r) → Remove v o1 = Some (o1, false)).
Proof.
  split; [|split].
  - apply Append_member. destruct (Has v o) eqn:Hv.
    + by rewrite Append_member.
    + rewrite Append_new by done. apply Has_insert. by left.
  - assert (Has v (Prepend v o).1 = true) as Hmember.
    { unfold Prepend. destruct (Has v o) eqn:Hv; [done|].
      apply Has_insert. by left. }
    unfold Prepend at 1. by rewrite Hmember.
  - intros o1 r Hrun. apply Remove_absent.
    apply Remove_inv in Hrun as [(-> & _ & ?)|(_ & _ & l & ->)]; [done|].
    apply Has_false_lookup. simpl. apply lookup_delete_eq.
Qed.

Lemma NoDup_fmap_drop_middle {A B : Type} (f : A → B) (l1 l2 : list A) (a : A) :
  NoDup (f <$> (l1 ++ a :: l2)) → NoDup (f <$> (l1 ++ l2)).
Proof.
  rewrite !fmap_app, fmap_cons, !NoDup_app, NoDup_cons.
  intros (? & Hdisj & _ & ?). split; [done|]. split; [|done].
  intros b Hb Hb'. apply (Hdisj b Hb). by right.
Qed.

(** X17, moving twice: on a set that a client can hold, repeating a call
    of [Move] with the same arguments returns the same result and leaves the
    set exactly as the first call left it. *)
Theorem X17_Move_twice o v mark after o1 r :
  reachable o → Move v mark after o = Some (o1, r) →
  Move v mark after o1 = Some (o1, r).
Proof.
  intros Hwf%reachable_wf Hrun.
  destruct (Move_safe o v mark after Hwf) as (o1' & r' & Hrun' & Hwf1).
  assert (o1' = o1) as -> by congruence. clear Hrun'.
  destruct (Has mark o) eqn:Hmark.
  2:{ unfold Move in Hrun. rewrite Hmark in Hrun. simpl in Hrun.
      injection Hrun as <- <-. unfold Move. by rewrite Hmark. }
  destruct (Has v o) eqn:Hv.
  2:{ rewrite Move_absent in Hrun by done. injection Hrun as <- <-.
      by apply Move_absent. }
  destruct (decide (v = mark)) as [->|Hne].
  { rewrite Move_self in Hrun by done. injection Hrun as <- <-.
    by apply Move_self. }
  destruct (Move_member o v mark after Hwf Hmark Hv Hne)
    as (e & m & xs & ys & xs' & ys' & Hsplit & He & Hm & Hsplit' & Hrun').
  rewrite Hrun' in Hrun. injection Hrun as <- <-.
  set (o1 := mkOrderedSet _ _) in *.
  assert (Has mark o1 = true) as Hmark1 by done.
  assert (Has v o1 = true) as Hv1 by done.
  destruct (Move_member o1 v mark after Hwf1 Hmark1 Hv1 Hne)
    as (e1 & m1 & xs1 & ys1 & xs1' & ys1' & Hsplit1 & He1 & Hm1 & Hsplit1' & Hrun1).
  rewrite Hrun1. unfold o1. simpl. do 3 f_equal.
  pose proof Hwf as (_ & _ & Hval & _). pose proof Hwf1 as (_ & _ & Hval1 & _).
  unfold values in Hval, Hval1. rewrite Hsplit in Hval.
  apply NoDup_fmap_drop_middle in Hval. rewrite Hsplit' in Hval.
  simpl in Hsplit1, Hval1.
  destruct after.
  - replace (xs' ++ m :: e :: ys') with ((xs' ++ [m]) ++ e :: ys') in Hsplit1, Hval1
      by by rewrite <- app_assoc.
    destruct (NoDup_fmap_split_inj GoList.Value _ _ _ _ _ _ Hval1 Hsplit1)
      as (<- & <- & <-); [congruence|].
    rewrite <- app_assoc in Hsplit1'. simpl in Hsplit1'.
    destruct (NoDup_fmap_split_inj GoList.Value _ _ _ _ _ _ Hval Hsplit1')
      as (<- & <- & <-); [congruence|]. done.
  - destruct (NoDup_fmap_split_inj GoList.Value _ _ _ _ _ _ Hval1 Hsplit1)
      as (<- & <- & <-); [congruence|].
    destruct (NoDup_fmap_split_inj GoList.Value _ _ _ _ _ _ Hval Hsplit1')
      as (<- & <- & <-); [congruence|]. done.
Qed.

(** X18, nodes are not replaced: whatever the set, when a call returns, a
    value that is a member before and after the call has the same entry in
    the mapping, that is the same node. *)
Theorem X18_node_of_a_member_is_kept (c : op) o o' w :
  exec c o = Some o' → Has w o = true → Has w o' = true →
  o_mapping o' !! w = o_mapping o !! w.
Proof.
  intros Hrun Hw Hw'.
  assert (o' = o ∨
          (∃ l v p, Has v o = false ∧ o' = mkOrderedSet l (<[v := p]> (o_mapping o))) ∨
          (∃ l v, o' = mkOrderedSet l (delete v (o_mapping o))) ∨
          (∃ l, o' = mkOrderedSet l (o_mapping o))) as Hshape.
  { destruct c as [v|v|v mark after|v mark after|v| |]; simpl in Hrun.
    - injection Hrun as <-. destruct (Has v o) eqn:Hv.
      + left. by rewrite Append_member.
      + right. left. rewrite Append_new by done. simpl. eauto.
    - injection Hrun as <-. unfold Prepend. destruct (Has v o) eqn:Hv.
      + by left.
      + right. left. simpl. eauto.
    - apply fmap_Some in Hrun as ([o1 r] & Hrun & ->). simpl.
      apply Insert_inv in Hrun as [[-> _]|(? & _ & l & p & ->)]; [by left|].
      right. left. eauto.
    - apply fmap_Some in Hrun as ([o1 r] & Hrun & ->). simpl.
      apply Move_inv in Hrun as [l ->]. right. right. right. eauto.
    - apply fmap_Some in Hrun as ([o1 r] & Hrun & ->). simpl.
      apply Remove_inv in Hrun as [(-> & _)|(_ & _ & l & ->)]; [by left|].
      right. right. left. eauto.
    - apply fmap_Some in Hrun as ([o1 r] & Hrun & ->). simpl.
      apply Pop_inv in Hrun as [(-> & _)|(e & l & _ & _ & ->)]; [by left|].
      right. right. left. eauto.
    - apply fmap_Some in Hrun as ([o1 r] & Hrun & ->). simpl.
      apply Shift_inv in Hrun as [(-> & _)|(e & l & _ & _ & ->)]; [by left|].
      right. right. left. eauto. }
  destruct Hshape as [->|[(l & v & p & Hv & ->)|[(l & v & ->)|(l & ->)]]];
    simpl; [done| | |done].
  - apply lookup_insert_ne. intros ->. congruence.
  - apply Has_delete in Hw' as [Hne _]. by apply lookup_delete_ne.
Qed.

(** Moving a member next to another member that is at an end. *)
Lemma Move_to_ends_other o v mark :
  reachable o → Has v o = true → v ≠ mark →
  (Back o = Some mark →
   ∃ o1 o2,
     Move v mark true o = Some (o1, None) ∧ Remove v o = Some (o2, true) ∧
     Back o1 = Some v ∧ Slice o1 = Slice (Append v o2).1) ∧
  (Front o = Some mark →
   ∃ o1 o2,
     Move v mark false o = Some (o1, None) ∧ Remove v o = Some (o2, true) ∧
     Front o1 = Some v ∧ Slice o1 = Slice (Prepend v o2).1).
Proof.
  intros Hwf%reachable_wf Hv Hne. pose proof Hwf as (_ & _ & Hval & _).
  destruct (Remove_member o v Hwf Hv) as (e & xs & ys & Hsplit & He & Hrem).
  unfold values in Hval. rewrite Hsplit in Hval.
  pose proof (NoDup_fmap_drop_middle _ _ _ _ Hval) as Hrest.
  assert (∀ after, Has mark o = true →
            ∃ m xs' ys', GoList.Value m = mark ∧ xs ++ ys = xs' ++ m :: ys' ∧
              Move v mark after o =
                Some (mkOrderedSet
                        (GoList.mkList
                           (if after then xs' ++ m :: e :: ys'
                            else xs' ++ e :: m :: ys')
                           (GoList.next_addr (o_list o)))
                        (o_mapping o), None)) as Hmove.
  { intros after Hmark.
    destruct (Move_member o v mark after Hwf Hmark Hv Hne)
      as (e' & m & xs0 & ys0 & xs' & ys' & Hsplit0 & He' & Hm & Hsplit' & Hrun).
    rewrite Hsplit in Hsplit0.
    destruct (NoDup_fmap_split_inj GoList.Value _ _ _ _ _ _ Hval Hsplit0)
      as (<- & <- & <-); [congruence|]. eauto 10. }
  assert (Has v (mkOrderedSet (GoList.mkList (xs ++ ys) (GoList.next_addr (o_list o)))
                   (delete v (o_mapping o))) = false) as Hgone.
  { apply Has_false_lookup. simpl. apply lookup_delete_eq. }
  split; intros Hend.
  - unfold Back, GoList.Back in Hend.
    destruct (last (GoList.elems (o_list o))) as [m0|] eqn:Hlast; [|done].
    injection Hend as Hm0. apply last_Some in Hlast as [es Hes].
    assert (Has mark o = true) as Hmark.
    { apply wf_Has; [done|]. unfold values. rewrite Hes, <- Hm0.
      apply list_elem_of_fmap_2, elem_of_app. right. by left. }
    destruct (Hmove true Hmark) as (m & xs' & ys' & Hm & Hsplit' & Hrun).
    rewrite Hsplit in Hes.
    destruct ys as [|y0 ys0 _] using rev_ind.
    { apply app_inj_tail in Hes as [_ ->]. congruence. }
    rewrite app_comm_cons, app_assoc in Hes.
    apply app_inj_tail in Hes as [_ ->].
    rewrite app_assoc in Hsplit', Hrest.
    destruct (NoDup_fmap_split_inj GoList.Value _ _ _ _ _ _ Hrest Hsplit')
      as (<- & <- & <-); [congruence|].
    eexists _, _. split; [exact Hrun|]. split; [exact Hrem|]. split.
    + unfold Back, GoList.Back. simpl.
      replace ((xs ++ ys0) ++ [m0; e]) with (((xs ++ ys0) ++ [m0]) ++ [e])
        by by rewrite <- !app_assoc.
      rewrite last_snoc. simpl. by rewrite He.
    + rewrite Append_new by done. rewrite !Slice_values. unfold values. simpl.
      rewrite !fmap_app. simpl. rewrite He, <- !app_assoc. done.
  - unfold Front, GoList.Front in Hend.
    destruct (head (GoList.elems (o_list o))) as [m0|] eqn:Hhead; [|done].
    injection Hend as Hm0. apply head_Some in Hhead as [es Hes].
    assert (Has mark o = true) as Hmark.
    { apply wf_Has; [done|]. unfold values. rewrite Hes, <- Hm0.
      apply list_elem_of_fmap_2. by left. }
    destruct (Hmove false Hmark) as (m & xs' & ys' & Hm & Hsplit' & Hrun).
    rewrite Hsplit in Hes.
    destruct xs as [|x0 xs0].
    { simpl in Hes. injection Hes as -> _. congruence. }
    simpl in Hes. injection Hes as -> _.
    destruct (NoDup_fmap_split_inj GoList.Value [] _ _ _ _ _ Hrest Hsplit')
      as (<- & <- & <-); [congruence|].
    eexists _, _. split; [exact Hrun|]. split; [exact Hrem|]. split.
    + unfold Front, GoList.Front. simpl. by rewrite He.
    + unfold Prepend. rewrite Hgone. rewrite !Slice_values. unfold values.
      simpl. by rewrite He.
Qed.

(** Moving the member that is at an end already next to itself. *)
Lemma Move_to_ends_self o v :
  reachable o → Has v o = true →
  (Back o = Some v →
   ∃ o2, Remove v o = Some (o2, true) ∧ Slice o = Slice (Append v o2).1) ∧
  (Front o = Some v →
   ∃ o2, Remove v o = Some (o2, true) ∧ Slice o = Slice (Prepend v o2).1).
Proof.
  intros Hwf%reachable_wf Hv. pose proof Hwf as (_ & _ & Hval & _).
  destruct (Remove_member o v Hwf Hv) as (e & xs & ys & Hsplit & He & Hrem).
  unfold values in Hval. rewrite Hsplit in Hval.
  assert (Has v (mkOrderedSet (GoList.mkList (xs ++ ys) (GoList.next_addr (o_list o)))
                   (delete v (o_mapping o))) = false) as Hgone.
  { apply Has_false_lookup. simpl. apply lookup_delete_eq. }
  split; intros Hend.
  - unfold Back, GoList.Back in Hend.
    destruct (last (GoList.elems (o_list o))) as [m0|] eqn:Hlast; [|done].
    injection Hend as Hm0. apply last_Some in Hlast as [es Hes].
    rewrite Hsplit in Hes.
    destruct (NoDup_fmap_split_inj GoList.Value _ _ _ _ _ _ Hval Hes)
      as (<- & <- & ->); [congruence|].
    eexists. split; [exact Hrem|].
    rewrite Append_new by done. rewrite !Slice_values. unfold values. simpl.
    rewrite Hsplit, app_nil_r, !fmap_app. simpl. by rewrite He.
  - unfold Front, GoList.Front in Hend.
    destruct (head (GoList.elems (o_list o))) as [m0|] eqn:Hhead; [|done].
    injection Hend as Hm0. apply head_Some in Hhead as [es Hes].
    rewrite Hsplit in Hes.
    destruct (NoDup_fmap_split_inj GoList.Value _ _ [] _ _ _ Hval Hes)
      as (-> & <- & <-); [congruence|].
    eexists. split; [exact Hrem|].
    unfold Prepend. rewrite Hgone. rewrite !Slice_values. unfold values. simpl.
    rewrite Hsplit. simpl. by rewrite He.
Qed.

(** X19, moving to an end: on a set that a client can hold, moving a
    member behind the last member makes it the last member and gives the
    [Slice] that removing it and appending it again gives; moving it in front
    of the first member makes it the first member and gives the [Slice] that
    removing it and prepending it again gives.  The member that is moved may
    be the last (first) member itself. *)
Theorem X19_Move_to_ends o v mark :
  reachable o → Has v o = true →
  (Back o = Some mark →
   ∃ o1 o2,
     Move v mark true o = Some (o1, None) ∧ Remove v o = Some (o2, true) ∧
     Back o1 = Some v ∧ Slice o1 = Slice (Append v o2).1) ∧
  (Front o = Some mark →
   ∃ o1 o2,
     Move v mark false o = Some (o1, None) ∧ Remove v o = Some (o2, true) ∧
     Front o1 = Some v ∧ Slice o1 = Slice (Prepend v o2).1).
Proof.
  intros Hreach Hv. destruct (decide (v = mark)) as [<-|Hne].
  - pose proof (reachable_wf o Hreach) as Hwf.
    destruct (Move_to_ends_self o v Hreach Hv) as [Hback Hfront].
    split; intros Hend.
    + destruct (Hback Hend) as (o2 & Hrem & Hslice).
      exists o, o2. by rewrite Move_self.
    + destruct (Hfront Hend) as (o2 & Hrem & Hslice).
      exists o, o2. by rewrite Move_self.
  - by apply Move_to_ends_other.
Qed.

(** X20, [Append] and [Prepend] of different values commute: whatever the
    set, either order of the two calls gives the same [Slice] and the same
    two results. *)
Theorem X20_Append_Prepend_commute o v w :
  v ≠ w →
  Slice (Prepend w (Append v o).1).1 = Slice (Append v (Prepend w o).1).1 ∧
  (Append v o).2 = (Append v (Prepend w o).1).2 ∧
  (Prepend w o).2 = (Prepend w (Append v o).1).2.
Proof.
  intros Hne.
  assert (Has w (Append v o).1 = Has w o) as Hw.
  { destruct (Has v o) eqn:Hv; [by rewrite Append_member|].
    rewrite Append_new by done. unfold Has. simpl.
    by rewrite lookup_insert_ne. }
  assert (Has v (Prepend w o).1 = Has v o) as Hv.
  { unfold Prepend. destruct (Has w o); [done|]. unfold Has. simpl.
    by rewrite lookup_insert_ne. }
  rewrite !Slice_values.
  rewrite (Prepend_values (Append v o).1 w), (Append_values (Prepend w o).1 v).
  rewrite Hw, Hv, Append_values, Prepend_values.
  split; [by destruct (Has v o), (Has w o)|].
  split.
  - unfold Append at 2. rewrite Hv. unfold Append.
    by destruct (Has v o).
  - unfold Prepend at 2. rewrite Hw. unfold Prepend.
    by destruct (Has w o).
Qed.

End OrderedSet.

(** ** The sets of the package's tests

    Sets of Go [int] (zero value 0) and of Go [string] (zero value the empty
    string). *)

(** Test "Insert". *)
Example Insert_test :
  ∃ o', Insert 4 3 true (New [1; 2; 3; 5]) = Some (o', (true, None)) ∧
        Slice 0 o' = Some [1; 2; 3; 4; 5] ∧
        Insert 4 3 true o' = Some (o', (false, None)) ∧
        Insert 4 3 false o' = Some (o', (false, None)) ∧
        Insert 4 99999 true o' = Some (o', (false, Some ErrMarkNotFound)).
Proof. eexists. split; [vm_compute; reflexivity|]. by vm_compute. Qed.

(** Test "Move". *)
Example Move_test :
  ∃ o', Move 4 3 true (New [1; 2; 4; 3; 5]) = Some (o', None) ∧
        Slice 0 o' = Some [1; 2; 3; 4; 5] ∧
        Move 4 999 true o' = Some (o', Some ErrMarkNotFound).
Proof. eexists. split; [vm_compute; reflexivity|]. by vm_compute. Qed.

(** [ExampleOrderedSet_Move]. *)
Example Move_before_example :
  ∃ o', Move 150 200 false (New [100; 200; 150; 250]) = Some (o', None) ∧
        Slice 0 o' = Some [100; 150; 200; 250].
Proof. eexists. split; [vm_compute; reflexivity|]. by vm_compute. Qed.

(** Test "set of struct values". *)
Example New_test :
  Slice 0 (New [0; 3; 4; 1; 19; 21; 4; 3; 0]) = Some [0; 3; 4; 1; 19; 21] ∧
  first_occurrences [0; 3; 4; 1; 19; 21; 4; 3; 0] = [0; 3; 4; 1; 19; 21].
Proof. by vm_compute. Qed.

(** [ExampleOrderedSet_Range]: the lines printed and the error returned. *)
Example Range_example :
  Range give_up_at_two (New ["zero"; "one"; "two"; "three"]%string) []
  = Some (Some (errors_New "reached two, giving up now"),
          [(0, "zero"); (1, "one"); (2, "two")]%string).
Proof. by vm_compute. Qed.

(** Tests "Pop" and "Shift". *)
Example Pop_Shift_test :
  (snd <$> pops 0 6 (New [1; 2; 3; 4; 5])) =
    Some [(5, true); (4, true); (3, true); (2, true); (1, true); (0, false)] ∧
  (snd <$> shifts 0 6 (New [1; 2; 3; 4; 5])) =
    Some [(1, true); (2, true); (3, true); (4, true); (5, true); (0, false)].
Proof. by vm_compute. Qed.

(** C1 on the set of the test "Insert". *)
Lemma C1_witness :
  reachable 0 (New [1; 2; 3; 5]) ∧
  ∃ vs, Slice 0 (New [1; 2; 3; 5]) = Some vs ∧
        (∀ v, Has v (New [1; 2; 3; 5]) = true ↔ v ∈ vs) ∧
        NoDup vs ∧
        Len (New [1; 2; 3; 5]) = Z.of_nat (length vs).
Proof.
  split; [apply reachable_New|].
  apply (C1_index_sequence_bijection 0 (New [1; 2; 3; 5])).
  apply reachable_New.
Defined.

(** C2 on the set of the test "Insert": 4 is put behind 3, and 2, a
    member, is not inserted again. *)
Lemma C2_witness :
  reachable 0 (New [1; 2; 3; 5]) ∧ Has 3 (New [1; 2; 3; 5]) = true ∧
  Has 4 (New [1; 2; 3; 5]) = false ∧ Has 2 (New [1; 2; 3; 5]) = true ∧
  (∃ o' vs now x,
     Insert 4 3 true (New [1; 2; 3; 5]) = Some (o', (true, None)) ∧
     Slice 0 (New [1; 2; 3; 5]) = Some vs ∧ Slice 0 o' = Some now ∧
     placed_next_to 4 3 true vs now ∧
     o_mapping o' !! 4 = Some (Some x) ∧ GoList.Value x = 4 ∧
     GoList.addr x ∉ GoList.addr <$> GoList.elems (o_list (New [1; 2; 3; 5]))) ∧
  Insert 2 3 true (New [1; 2; 3; 5]) = Some (New [1; 2; 3; 5], (false, None)).
Proof.
  assert (Has 3 (New [1; 2; 3; 5]) = true) as Hmark by (by vm_compute).
  assert (Has 4 (New [1; 2; 3; 5]) = false) as Hnew by (by vm_compute).
  assert (Has 2 (New [1; 2; 3; 5]) = true) as Hold by (by vm_compute).
  split; [apply reachable_New|]. do 3 (split; [done|]). split.
  - apply (proj1 (C2_Insert_contract 0 (New [1; 2; 3; 5]) 4 3 true
                    (reachable_New 0 _) Hmark) Hnew).
  - apply (proj2 (C2_Insert_contract 0 (New [1; 2; 3; 5]) 2 3 true
                    (reachable_New 0 _) Hmark) Hold).
Defined.

(** C3 as stated fails for a member moved relative to itself: on the set
    [1, 2] the mark 1 is a member, and [Move(1, 1, true)] does not unlink
    the node of 1 and link it behind the node of 1. *)
Lemma C3_counterexample :
  reachable 0 (New [1; 2]) ∧ Has 1 (New [1; 2]) = true ∧
  Move 1 1 true (New [1; 2]) = Some (New [1; 2], None) ∧
  Slice 0 (New [1; 2]) = Some [1; 2] ∧
  ¬ Move_contract 0 1 1 true (New [1; 2]).
Proof.
  split; [apply reachable_New|]. split; [by vm_compute|].
  split; [by vm_compute|]. split; [by vm_compute|].
  intros [_ Hmember].
  destruct Hmember as (o' & a & b & now & _ & Hslice & _ & Hplaced & _);
    [by vm_compute|].
  destruct Hplaced as (xs & ys & Hrest & _).
  assert (Slice 0 (New [1; 2]) = Some [1; 2]) as Hvs by by vm_compute.
  rewrite Hvs in Hslice. injection Hslice as Hslice.
  destruct a as [|a0 [|a1 a]]; simplify_eq/=.
  - destruct xs as [|x0 [|x1 xs]]; simplify_eq/=.
  - destruct a; simplify_eq/=.
Qed.

(** C3 as amended on the set of the test "Move": 4 is moved behind 3, and
    9, not a member, is left alone. *)
Lemma C3_witness :
  reachable 0 (New [1; 2; 4; 3; 5]) ∧ Has 3 (New [1; 2; 4; 3; 5]) = true ∧
  Has 4 (New [1; 2; 4; 3; 5]) = true ∧ Has 9 (New [1; 2; 4; 3; 5]) = false ∧
  (∃ o' a b now,
     Move 4 3 true (New [1; 2; 4; 3; 5]) = Some (o', None) ∧
     Slice 0 (New [1; 2; 4; 3; 5]) = Some (a ++ 4 :: b) ∧
     Slice 0 o' = Some now ∧
     placed_next_to 4 3 true (a ++ b) now ∧
     o_mapping o' !! 4 = o_mapping (New [1; 2; 4; 3; 5]) !! 4) ∧
  Move 9 3 true (New [1; 2; 4; 3; 5]) = Some (New [1; 2; 4; 3; 5], None) ∧
  Move 3 3 true (New [1; 2; 4; 3; 5]) = Some (New [1; 2; 4; 3; 5], None).
Proof.
  assert (Has 3 (New [1; 2; 4; 3; 5]) = true) as Hmark by (by vm_compute).
  assert (Has 4 (New [1; 2; 4; 3; 5]) = true) as Hmember by (by vm_compute).
  assert (Has 9 (New [1; 2; 4; 3; 5]) = false) as Habsent by (by vm_compute).
  assert (4 ≠ 3) as Hne43 by discriminate.
  assert (9 ≠ 3) as Hne93 by discriminate.
  split; [apply reachable_New|]. do 3 (split; [done|]). split; [|split].
  - apply (proj2 (proj1 (C3_Move_contract_amended 0 (New [1; 2; 4; 3; 5]) 4 3 true
                           (reachable_New 0 _) Hmark) Hne43) Hmember).
  - apply (proj1 (proj1 (C3_Move_contract_amended 0 (New [1; 2; 4; 3; 5]) 9 3 true
                           (reachable_New 0 _) Hmark) Hne93) Habsent).
  - apply (proj2 (C3_Move_contract_amended 0 (New [1; 2; 4; 3; 5]) 3 3 true
                    (reachable_New 0 _) Hmark) eq_refl).
Defined.

(** C4 on the set of the test "Insert", with a mark that is not a member. *)
Lemma C4_witness :
  reachable 0 (New [1; 2; 3; 5]) ∧
  (∃ o' added err,
     Insert 4 99999 true (New [1; 2; 3; 5]) = Some (o', (added, err)) ∧
     (err = Some ErrMarkNotFound ↔ Has 99999 (New [1; 2; 3; 5]) = false) ∧
     (err ≠ None → o' = New [1; 2; 3; 5] ∧ added = false)) ∧
  (∃ o' err,
     Move 4 99999 true (New [1; 2; 3; 5]) = Some (o', err) ∧
     (err = Some ErrMarkNotFound ↔ Has 99999 (New [1; 2; 3; 5]) = false) ∧
     (err ≠ None → o' = New [1; 2; 3; 5])).
Proof.
  split; [apply reachable_New|].
  apply (C4_MarkNotFound 0 (New [1; 2; 3; 5]) 4 99999 true).
  apply reachable_New.
Defined.

(** C5 on the set [0, 10, 20] of the package documentation: 10 is
    removed, and 7, not a member, is not. *)
Lemma C5_witness :
  reachable 0 (New [0; 10; 20]) ∧
  Has 10 (New [0; 10; 20]) = true ∧ Has 7 (New [0; 10; 20]) = false ∧
  (∃ o' (xs ys : list Z),
     Remove 10 (New [0; 10; 20]) = Some (o', true) ∧
     Has 10 o' = false ∧
     Len o' = Len (New [0; 10; 20]) - 1 ∧
     Slice 0 (New [0; 10; 20]) = Some (xs ++ 10 :: ys) ∧
     Slice 0 o' = Some (xs ++ ys) ∧
     10 ∉ xs ++ ys) ∧
  Remove 7 (New [0; 10; 20]) = Some (New [0; 10; 20], false).
Proof.
  assert (Has 10 (New [0; 10; 20]) = true) as Hmember by (by vm_compute).
  assert (Has 7 (New [0; 10; 20]) = false) as Habsent by (by vm_compute).
  split; [apply reachable_New|]. do 2 (split; [done|]). split.
  - apply (proj2 (C5_Remove_contract 0 (New [0; 10; 20]) 10 (reachable_New 0 _))
             Hmember).
  - apply (proj1 (C5_Remove_contract 0 (New [0; 10; 20]) 7 (reachable_New 0 _))
             Habsent).
Defined.

(** C6 on the values of the tests "Pop" and "Shift". *)
Lemma C6_witness :
  NoDup [1; 2; 3; 4; 5] ∧ Len (New (T := Z) []) = 0 ∧
  let o := foldl (λ set v, (Append v set).1) (New []) [1; 2; 3; 4; 5] in
  (∃ o', pops 0 5 o = Some (o', (λ v, (v, true)) <$> reverse [1; 2; 3; 4; 5]) ∧
         Len o' = 0) ∧
  (∃ o', shifts 0 5 o = Some (o', (λ v, (v, true)) <$> [1; 2; 3; 4; 5]) ∧
         Len o' = 0) ∧
  Pop 0 (New []) = Some (New [], (0, false)) ∧
  Shift 0 (New []) = Some (New [], (0, false)).
Proof.
  assert (NoDup [1; 2; 3; 4; 5]) as Hnodup
    by (apply (bool_decide_unpack (NoDup [1; 2; 3; 4; 5])); vm_compute; exact I).
  split; [exact Hnodup|]. split; [reflexivity|].
  apply (C6_Pop_Shift_duality 0 [1; 2; 3; 4; 5] (New [])).
  - exact Hnodup.
  - reflexivity.
Defined.

(** C7 on the set and the visitor of [ExampleOrderedSet_Range]; the nodes
    of the set hold "zero", "one", "two", "three" from front to back. *)
Lemma C7_witness :
  (∀ j w s0, is_Some (give_up_at_two j w s0)) ∧
  values (New ["zero"; "one"; "two"; "three"]%string)
    = ["zero"; "one"; "two"; "three"]%string ∧
  ∃ r s' log,
    Slice EmptyString (New ["zero"; "one"; "two"; "three"]%string)
      = Some (values (New ["zero"; "one"; "two"; "three"]%string)) ∧
    Range (logged give_up_at_two) (New ["zero"; "one"; "two"; "three"]%string)
      ([], []) = Some (r, (s', log)) ∧
    Range give_up_at_two (New ["zero"; "one"; "two"; "three"]%string) []
      = Some (r, s') ∧
    ((r = None ∧
      log = (λ p, (p, None)) <$>
              positions (values (New ["zero"; "one"; "two"; "three"]%string))) ∨
     (∃ err pre j w post s0,
        r = Some err ∧
        positions (values (New ["zero"; "one"; "two"; "three"]%string))
          = pre ++ (j, w) :: post ∧
        log = ((λ p, (p, None)) <$> pre) ++ [(j, w, Some err)] ∧
        give_up_at_two j w s0 = Some (Some err, s'))).
Proof.
  assert (∀ j w s0, is_Some (give_up_at_two j w s0)) as Htotal
    by (intros j w s0; eexists; reflexivity).
  split; [exact Htotal|]. split; [by vm_compute|].
  apply (C7_Range_order_short_circuit EmptyString give_up_at_two
           (New ["zero"; "one"; "two"; "three"]%string) [] Htotal).
Defined.

(** C9 on the set of the test "Append/Prepend/Front/Back/Has/Length", and
    on the empty set. *)
Lemma C9_witness :
  0 < Len (New [1; 3; 5]) ∧ Len (New (T := Z) []) = 0 ∧
  (∃ (vs : list Z) (x y : Z),
     Slice 0 (New [1; 3; 5]) = Some vs ∧
     vs !! 0%nat = Some x ∧ vs !! Z.to_nat (Len (New [1; 3; 5]) - 1) = Some y ∧
     Front (New [1; 3; 5]) = Some x ∧ Back (New [1; 3; 5]) = Some y) ∧
  Front (New (T := Z) []) = None ∧ Back (New (T := Z) []) = None.
Proof.
  assert (0 < Len (New [1; 3; 5])) as Hlen by reflexivity.
  assert (Len (New (T := Z) []) = 0) as Hempty by reflexivity.
  split; [exact Hlen|]. split; [exact Hempty|]. split.
  - apply (proj1 (C9_Front_Back 0 (New [1; 3; 5])) Hlen).
  - apply (proj2 (C9_Front_Back 0 (New []))  Hempty).
Defined.

(** C10 on the set [1, 2]. *)
Lemma C10_witness :
  reachable 0 (New [1; 2]) ∧ Has 1 (New [1; 2]) = true ∧
  Move 1 1 true (New [1; 2]) = Some (New [1; 2], None) ∧
  Move 1 1 false (New [1; 2]) = Some (New [1; 2], None).
Proof.
  assert (Has 1 (New [1; 2]) = true) as Hmember by (by vm_compute).
  split; [apply reachable_New|]. split; [exact Hmember|]. split.
  - apply (C10_Move_self_noop 0 (New [1; 2]) 1 true (reachable_New 0 _) Hmember).
  - apply (C10_Move_self_noop 0 (New [1; 2]) 1 false (reachable_New 0 _) Hmember).
Defined.

(** ** Instances of the further properties *)

(** The invariant matters: on a set whose mapping holds nil for the key 1,
    a state that no history of calls produces, [Remove] and [Move]
    dereference nil. *)
Example nil_entry_panics :
  Remove 1 (mkOrderedSet GoList.New {[1 := None]}) = None ∧
  Move 1 1 true (mkOrderedSet GoList.New {[1 := None]}) = None.
Proof. by vm_compute. Qed.

(** X1 on the set of the test "Append/Prepend/Front/Back/Has/Length". *)
Lemma X1_witness :
  Has 5 (New [1; 3; 5]) = true ∧ Has 7 (New [1; 3; 5]) = false ∧
  Append 5 (New [1; 3; 5]) = (New [1; 3; 5], false) ∧
  ∃ o' (vs : list Z),
    Append 7 (New [1; 3; 5]) = (o', true) ∧
    Slice 0 (New [1; 3; 5]) = Some vs ∧ Slice 0 o' = Some (vs ++ [7]) ∧
    Has 7 o' = true ∧ Len o' = Len (New [1; 3; 5]) + 1 ∧ Back o' = Some 7 ∧
    ∀ w, w ≠ 7 → Has w o' = Has w (New [1; 3; 5]).
Proof.
  assert (Has 5 (New [1; 3; 5]) = true) as Hold by (by vm_compute).
  assert (Has 7 (New [1; 3; 5]) = false) as Hnew by (by vm_compute).
  do 2 (split; [done|]). split.
  - apply (proj1 (X1_Append_contract 0 (New [1; 3; 5]) 5) Hold).
  - apply (proj2 (X1_Append_contract 0 (New [1; 3; 5]) 7) Hnew).
Defined.

(** X2 on the same set. *)
Lemma X2_witness :
  Has 1 (New [1; 3; 5]) = true ∧ Has 0 (New [1; 3; 5]) = false ∧
  Prepend 1 (New [1; 3; 5]) = (New [1; 3; 5], false) ∧
  ∃ o' (vs : list Z),
    Prepend 0 (New [1; 3; 5]) = (o', true) ∧
    Slice 0 (New [1; 3; 5]) = Some vs ∧ Slice 0 o' = Some (0 :: vs) ∧
    Has 0 o' = true ∧ Len o' = Len (New [1; 3; 5]) + 1 ∧ Front o' = Some 0 ∧
    ∀ w, w ≠ 0 → Has w o' = Has w (New [1; 3; 5]).
Proof.
  assert (Has 1 (New [1; 3; 5]) = true) as Hold by (by vm_compute).
  assert (Has 0 (New [1; 3; 5]) = false) as Hnew by (by vm_compute).
  do 2 (split; [done|]). split.
  - apply (proj1 (X2_Prepend_contract 0 (New [1; 3; 5]) 1) Hold).
  - apply (proj2 (X2_Prepend_contract 0 (New [1; 3; 5]) 0) Hnew).
Defined.

(** X3 on the set and the visitor of [ExampleOrderedSet_Range]. *)
Lemma X3_witness :
  (∀ j w s0, is_Some (give_up_at_two j w s0)) ∧
  ∃ (vs : list string) r s' log,
    Slice EmptyString (New ["zero"; "one"; "two"; "three"]%string) = Some vs ∧
    RangeReverse (logged give_up_at_two)
      (New ["zero"; "one"; "two"; "three"]%string) ([], []) = Some (r, (s', log)) ∧
    RangeReverse give_up_at_two (New ["zero"; "one"; "two"; "three"]%string) []
      = Some (r, s') ∧
    ((r = None ∧ log = (λ p, (p, None)) <$> positions (reverse vs)) ∨
     (∃ err pre j w post s0,
        r = Some err ∧
        positions (reverse vs) = pre ++ (j, w) :: post ∧
        log = ((λ p, (p, None)) <$> pre) ++ [(j, w, Some err)] ∧
        give_up_at_two j w s0 = Some (Some err, s'))).
Proof.
  assert (∀ j w s0, is_Some (give_up_at_two j w s0)) as Htotal
    by (intros j w s0; eexists; reflexivity).
  split; [exact Htotal|].
  apply (X3_RangeReverse_order_short_circuit EmptyString give_up_at_two
           (New ["zero"; "one"; "two"; "three"]%string) [] Htotal).
Defined.

(** [RangeReverse] with the visitor of [ExampleOrderedSet_Range]: the lines
    printed and the error returned. *)
Example RangeReverse_example :
  RangeReverse give_up_at_two (New ["zero"; "one"; "two"; "three"]%string) []
  = Some (Some (errors_New "reached two, giving up now"),
          [(0, "three"); (1, "two")]%string).
Proof. by vm_compute. Qed.

(** X5 on the set of the test "Insert". *)
Lemma X5_witness :
  reachable 0 (New [1; 2; 3; 5]) ∧
  is_Some (Pop 0 (New [1; 2; 3; 5])) ∧ is_Some (Shift 0 (New [1; 2; 3; 5])) ∧
  (∀ v, is_Some (Remove v (New [1; 2; 3; 5]))) ∧
  (∀ v mark after, is_Some (Insert v mark after (New [1; 2; 3; 5]))) ∧
  (∀ v mark after, is_Some (Move v mark after (New [1; 2; 3; 5]))).
Proof.
  split; [apply reachable_New|].
  apply (X5_no_panic 0 (New [1; 2; 3; 5]) (reachable_New 0 _)).
Defined.

(** X6 on the set of the test "Insert". *)
Lemma X6_witness :
  reachable 0 (New [1; 2; 3; 5]) ∧
  (∀ v p, o_mapping (New [1; 2; 3; 5]) !! v = Some p →
          ∃ e, p = Some e ∧ e ∈ GoList.elems (o_list (New [1; 2; 3; 5])) ∧
               GoList.Value e = v) ∧
  (∀ e, e ∈ GoList.elems (o_list (New [1; 2; 3; 5])) →
        o_mapping (New [1; 2; 3; 5]) !! GoList.Value e = Some (Some e)) ∧
  NoDup (GoList.addr <$> GoList.elems (o_list (New [1; 2; 3; 5]))) ∧
  Z.of_nat (size (o_mapping (New [1; 2; 3; 5]))) = Len (New [1; 2; 3; 5]).
Proof.
  split; [apply reachable_New|].
  apply (X6_mapping_agrees_with_list 0 (New [1; 2; 3; 5]) (reachable_New 0 _)).
Defined.

(** X7 on the set [0, 10, 20]: [Remove(10)] takes 10 out, and a value that
    is out afterwards was the argument. *)
Lemma X7_witness :
  ∃ o',
    exec 0 (OpRemove 10) (New [0; 10; 20]) = Some o' ∧
    Has 10 (New [0; 10; 20]) = true ∧ Has 10 o' = false ∧
    (OpRemove 10 = OpRemove 10 ∨
     (OpRemove 10 = OpPop ∧ Back (New [0; 10; 20]) = Some 10) ∨
     (OpRemove 10 = OpShift ∧ Front (New [0; 10; 20]) = Some 10)).
Proof.
  eexists. split; [vm_compute; reflexivity|].
  assert (Has 10 (New [0; 10; 20]) = true) as Hin by (by vm_compute).
  split; [exact Hin|]. split; [by vm_compute|].
  refine (proj2 (X7_membership_changes 0 (OpRemove 10) (New [0; 10; 20]) _ 10 _)
            Hin _); by vm_compute.
Defined.

(** X8 on the set of the test "Move". *)
Lemma X8_witness :
  ∃ o' r,
    reachable 0 (New [1; 2; 4; 3; 5]) ∧
    Move 4 3 true (New [1; 2; 4; 3; 5]) = Some (o', r) ∧
    o_mapping o' = o_mapping (New [1; 2; 4; 3; 5]) ∧
    Len o' = Len (New [1; 2; 4; 3; 5]) ∧
    ∃ vs vs' : list Z,
      Slice 0 (New [1; 2; 4; 3; 5]) = Some vs ∧ Slice 0 o' = Some vs' ∧
      vs' ≡ₚ vs ∧ filter (λ w, w ≠ 4) vs' = filter (λ w, w ≠ 4) vs.
Proof.
  eexists _, _. split; [apply reachable_New|].
  split; [vm_compute; reflexivity|].
  refine (X8_Move_preserves 0 (New [1; 2; 4; 3; 5]) 4 3 true _ _
            (reachable_New 0 _) _).
  by vm_compute.
Defined.

(** X9 on the values of the test "Pop". *)
Lemma X9_witness :
  reachable 0 (New [1; 2; 3; 4; 5]) ∧ 0 < Len (New [1; 2; 3; 4; 5]) ∧
  ∃ o' (vs : list Z) (y : Z),
    Pop 0 (New [1; 2; 3; 4; 5]) = Some (o', (y, true)) ∧
    Back (New [1; 2; 3; 4; 5]) = Some y ∧
    Slice 0 (New [1; 2; 3; 4; 5]) = Some (vs ++ [y]) ∧ Slice 0 o' = Some vs ∧
    Has y o' = false ∧ (y ∉ vs) ∧ Len o' = Len (New [1; 2; 3; 4; 5]) - 1.
Proof.
  assert (0 < Len (New [1; 2; 3; 4; 5])) as Hlen by reflexivity.
  split; [apply reachable_New|]. split; [exact Hlen|].
  apply (X9_Pop_contract 0 (New [1; 2; 3; 4; 5]) (reachable_New 0 _) Hlen).
Defined.

(** X10 on the values of the test "Shift". *)
Lemma X10_witness :
  reachable 0 (New [1; 2; 3; 4; 5]) ∧ 0 < Len (New [1; 2; 3; 4; 5]) ∧
  ∃ o' (vs : list Z) (y : Z),
    Shift 0 (New [1; 2; 3; 4; 5]) = Some (o', (y, true)) ∧
    Front (New [1; 2; 3; 4; 5]) = Some y ∧
    Slice 0 (New [1; 2; 3; 4; 5]) = Some (y :: vs) ∧ Slice 0 o' = Some vs ∧
    Has y o' = false ∧ (y ∉ vs) ∧ Len o' = Len (New [1; 2; 3; 4; 5]) - 1.
Proof.
  assert (0 < Len (New [1; 2; 3; 4; 5])) as Hlen by reflexivity.
  split; [apply reachable_New|]. split; [exact Hlen|].
  apply (X10_Shift_contract 0 (New [1; 2; 3; 4; 5]) (reachable_New 0 _) Hlen).
Defined.

(** X11 on the set [1, 2, 3] with the value 9. *)
Lemma X11_witness :
  reachable 0 (New [1; 2; 3]) ∧ Has 9 (New [1; 2; 3]) = false ∧
  (∃ o', Pop 0 (Append 9 (New [1; 2; 3])).1 = Some (o', (9, true)) ∧
         GoList.elems (o_list o') = GoList.elems (o_list (New [1; 2; 3])) ∧
         o_mapping o' = o_mapping (New [1; 2; 3]) ∧
         Slice 0 o' = Slice 0 (New [1; 2; 3])) ∧
  (∃ o', Shift 0 (Prepend 9 (New [1; 2; 3])).1 = Some (o', (9, true)) ∧
         GoList.elems (o_list o') = GoList.elems (o_list (New [1; 2; 3])) ∧
         o_mapping o' = o_mapping (New [1; 2; 3]) ∧
         Slice 0 o' = Slice 0 (New [1; 2; 3])).
Proof.
  assert (Has 9 (New [1; 2; 3]) = false) as Hnew by (by vm_compute).
  split; [apply reachable_New|]. split; [exact Hnew|].
  apply (X11_push_pop_round_trip 0 (New [1; 2; 3]) 9 (reachable_New 0 _) Hnew).
Defined.

(** X12 on the set of [ExampleOrderedSet_Insert]: 40 in front of 50. *)
Lemma X12_witness :
  reachable 0 (New [10; 20; 30; 50; 60]) ∧
  Has 50 (New [10; 20; 30; 50; 60]) = true ∧
  Has 40 (New [10; 20; 30; 50; 60]) = false ∧
  ∃ o1 o2,
    Insert 40 50 false (New [10; 20; 30; 50; 60]) = Some (o1, (true, None)) ∧
    Remove 40 o1 = Some (o2, true) ∧
    GoList.elems (o_list o2) = GoList.elems (o_list (New [10; 20; 30; 50; 60])) ∧
    o_mapping o2 = o_mapping (New [10; 20; 30; 50; 60]) ∧
    Slice 0 o2 = Slice 0 (New [10; 20; 30; 50; 60]).
Proof.
  assert (Has 50 (New [10; 20; 30; 50; 60]) = true) as Hmark by (by vm_compute).
  assert (Has 40 (New [10; 20; 30; 50; 60]) = false) as Hnew by (by vm_compute).
  split; [apply reachable_New|]. do 2 (split; [done|]).
  apply (X12_Insert_Remove_round_trip 0 (New [10; 20; 30; 50; 60]) 40 50 false
           (reachable_New 0 _) Hmark Hnew).
Defined.

(** X13 on the set [1, 2, 3]: 4 behind the last member, 0 in front of the
    first. *)
Lemma X13_witness :
  reachable 0 (New [1; 2; 3]) ∧
  Has 4 (New [1; 2; 3]) = false ∧ Has 0 (New [1; 2; 3]) = false ∧
  Back (New [1; 2; 3]) = Some 3 ∧ Front (New [1; 2; 3]) = Some 1 ∧
  Insert 4 3 true (New [1; 2; 3]) = Some ((Append 4 (New [1; 2; 3])).1, (true, None)) ∧
  Insert 0 1 false (New [1; 2; 3]) = Some ((Prepend 0 (New [1; 2; 3])).1, (true, None)).
Proof.
  assert (Has 4 (New [1; 2; 3]) = false) as Hnew4 by (by vm_compute).
  assert (Has 0 (New [1; 2; 3]) = false) as Hnew0 by (by vm_compute).
  assert (Back (New [1; 2; 3]) = Some 3) as Hback by (by vm_compute).
  assert (Front (New [1; 2; 3]) = Some 1) as Hfront by (by vm_compute).
  split; [apply reachable_New|]. do 4 (split; [done|]). split.
  - apply (proj1 (X13_Insert_at_ends 0 (New [1; 2; 3]) 4 3 (reachable_New 0 _) Hnew4)
             Hback).
  - apply (proj2 (X13_Insert_at_ends 0 (New [1; 2; 3]) 0 1 (reachable_New 0 _) Hnew0)
             Hfront).
Defined.

(** X15 on the set of the test "set of struct values". *)
Lemma X15_witness :
  reachable 0 (New [0; 3; 4; 1; 19; 21; 4; 3; 0]) ∧
  Slice 0 (New [0; 3; 4; 1; 19; 21; 4; 3; 0]) = Some [0; 3; 4; 1; 19; 21] ∧
  Slice 0 (New [0; 3; 4; 1; 19; 21]) = Some [0; 3; 4; 1; 19; 21] ∧
  Len (New [0; 3; 4; 1; 19; 21]) = Len (New [0; 3; 4; 1; 19; 21; 4; 3; 0]) ∧
  ∀ v, Has v (New [0; 3; 4; 1; 19; 21]) = Has v (New [0; 3; 4; 1; 19; 21; 4; 3; 0]).
Proof.
  assert (Slice 0 (New [0; 3; 4; 1; 19; 21; 4; 3; 0]) = Some [0; 3; 4; 1; 19; 21])
    as Hslice by (by vm_compute).
  split; [apply reachable_New|]. split; [exact Hslice|].
  apply (X15_New_of_Slice 0 (New [0; 3; 4; 1; 19; 21; 4; 3; 0]) [0; 3; 4; 1; 19; 21]
           (reachable_New 0 _) Hslice).
Defined.

(** X16 on the set [0, 10, 20]: a second [Remove(10)]. *)
Lemma X16_witness :
  ∃ o1,
    Remove 10 (New [0; 10; 20]) = Some (o1, true) ∧
    Remove 10 o1 = Some (o1, false).
Proof.
  eexists. split; [vm_compute; reflexivity|].
  refine (proj2 (proj2 (X16_second_call_is_noop (New [0; 10; 20]) 10)) _ true _).
  by vm_compute.
Defined.

(** X17 on the set of the test "Move". *)
Lemma X17_witness :
  ∃ o1,
    reachable 0 (New [1; 2; 4; 3; 5]) ∧
    Move 4 3 true (New [1; 2; 4; 3; 5]) = Some (o1, None) ∧
    Move 4 3 true o1 = Some (o1, None).
Proof.
  eexists. split; [apply reachable_New|]. split; [vm_compute; reflexivity|].
  refine (X17_Move_twice 0 (New [1; 2; 4; 3; 5]) 4 3 true _ None
            (reachable_New 0 _) _).
  by vm_compute.
Defined.

(** X18 on the set of the test "Insert": the node of 3 under [Insert(4, 3, true)]. *)
Lemma X18_witness :
  ∃ o',
    exec 0 (OpInsert 4 3 true) (New [1; 2; 3; 5]) = Some o' ∧
    Has 3 (New [1; 2; 3; 5]) = true ∧ Has 3 o' = true ∧
    o_mapping o' !! 3 = o_mapping (New [1; 2; 3; 5]) !! 3.
Proof.
  eexists. split; [vm_compute; reflexivity|].
  assert (Has 3 (New [1; 2; 3; 5]) = true) as Hin by (by vm_compute).
  split; [exact Hin|].
  split; [by vm_compute|].
  refine (X18_node_of_a_member_is_kept 0 (OpInsert 4 3 true) (New [1; 2; 3; 5]) _ 3
            _ Hin _); by vm_compute.
Defined.

(** X19 on the set of the test "Insert": 2 behind the last member, 3 in
    front of the first, the last member 5 behind itself and the first member
    1 in front of itself; and on the set [7], whose one member is both. *)
Lemma X19_witness :
  reachable 0 (New [1; 2; 3; 5]) ∧ reachable 0 (New [7]) ∧
  Has 2 (New [1; 2; 3; 5]) = true ∧ Has 3 (New [1; 2; 3; 5]) = true ∧
  Has 5 (New [1; 2; 3; 5]) = true ∧ Has 1 (New [1; 2; 3; 5]) = true ∧
  Has 7 (New [7]) = true ∧
  Back (New [1; 2; 3; 5]) = Some 5 ∧ Front (New [1; 2; 3; 5]) = Some 1 ∧
  Back (New [7]) = Some 7 ∧ Front (New [7]) = Some 7 ∧
  (∃ o1 o2,
     Move 2 5 true (New [1; 2; 3; 5]) = Some (o1, None) ∧
     Remove 2 (New [1; 2; 3; 5]) = Some (o2, true) ∧
     Back o1 = Some 2 ∧ Slice 0 o1 = Slice 0 (Append 2 o2).1) ∧
  (∃ o1 o2,
     Move 3 1 false (New [1; 2; 3; 5]) = Some (o1, None) ∧
     Remove 3 (New [1; 2; 3; 5]) = Some (o2, true) ∧
     Front o1 = Some 3 ∧ Slice 0 o1 = Slice 0 (Prepend 3 o2).1) ∧
  (∃ o1 o2,
     Move 5 5 true (New [1; 2; 3; 5]) = Some (o1, None) ∧
     Remove 5 (New [1; 2; 3; 5]) = Some (o2, true) ∧
     Back o1 = Some 5 ∧ Slice 0 o1 = Slice 0 (Append 5 o2).1) ∧
  (∃ o1 o2,
     Move 1 1 false (New [1; 2; 3; 5]) = Some (o1, None) ∧
     Remove 1 (New [1; 2; 3; 5]) = Some (o2, true) ∧
     Front o1 = Some 1 ∧ Slice 0 o1 = Slice 0 (Prepend 1 o2).1) ∧
  (∃ o1 o2,
     Move 7 7 true (New [7]) = Some (o1, None) ∧
     Remove 7 (New [7]) = Some (o2, true) ∧
     Back o1 = Some 7 ∧ Slice 0 o1 = Slice 0 (Append 7 o2).1) ∧
  (∃ o1 o2,
     Move 7 7 false (New [7]) = Some (o1, None) ∧
     Remove 7 (New [7]) = Some (o2, true) ∧
     Front o1 = Some 7 ∧ Slice 0 o1 = Slice 0 (Prepend 7 o2).1).
Proof.
  assert (Has 2 (New [1; 2; 3; 5]) = true) as H2 by (by vm_compute).
  assert (Has 3 (New [1; 2; 3; 5]) = true) as H3 by (by vm_compute).
  assert (Has 5 (New [1; 2; 3; 5]) = true) as H5 by (by vm_compute).
  assert (Has 1 (New [1; 2; 3; 5]) = true) as H1 by (by vm_compute).
  assert (Has 7 (New [7]) = true) as H7 by (by vm_compute).
  assert (Back (New [1; 2; 3; 5]) = Some 5) as Hback by (by vm_compute).
  assert (Front (New [1; 2; 3; 5]) = Some 1) as Hfront by (by vm_compute).
  assert (Back (New [7]) = Some 7) as Hback7 by (by vm_compute).
  assert (Front (New [7]) = Some 7) as Hfront7 by (by vm_compute).
  split; [apply reachable_New|]. split; [apply reachable_New|].
  do 9 (split; [done|]). repeat split.
  - apply (proj1 (X19_Move_to_ends 0 (New [1; 2; 3; 5]) 2 5 (reachable_New 0 _) H2)
             Hback).
  - apply (proj2 (X19_Move_to_ends 0 (New [1; 2; 3; 5]) 3 1 (reachable_New 0 _) H3)
             Hfront).
  - apply (proj1 (X19_Move_to_ends 0 (New [1; 2; 3; 5]) 5 5 (reachable_New 0 _) H5)
             Hback).
  - apply (proj2 (X19_Move_to_ends 0 (New [1; 2; 3; 5]) 1 1 (reachable_New 0 _) H1)
             Hfront).
  - apply (proj1 (X19_Move_to_ends 0 (New [7]) 7 7 (reachable_New 0 _) H7) Hback7).
  - apply (proj2 (X19_Move_to_ends 0 (New [7]) 7 7 (reachable_New 0 _) H7) Hfront7).
Defined.

(** X20 on the set of the test "Append/Prepend/Front/Back/Has/Length". *)
Lemma X20_witness :
  7 ≠ 0 ∧
  Slice 0 (Prepend 0 (Append 7 (New [1; 3; 5])).1).1
  = Slice 0 (Append 7 (Prepend 0 (New [1; 3; 5])).1).1 ∧
  (Append 7 (New [1; 3; 5])).2 = (Append 7 (Prepend 0 (New [1; 3; 5])).1).2 ∧
  (Prepend 0 (New [1; 3; 5])).2 = (Prepend 0 (Append 7 (New [1; 3; 5])).1).2.
Proof.
  assert (7 ≠ 0) as Hne by discriminate.
  split; [exact Hne|].
  apply (X20_Append_Prepend_commute 0 (New [1; 3; 5]) 7 0 Hne).
Defined.

End ordset.
